(** * PCM visualiser: quantizer, stride planning, chart walk and preview table

    A shallow embedding of [utils/audioUtils.ts] (the quantizer),
    [components/WaveformCanvas.tsx] (the chart) and the preview table of
    [App.tsx].

    Number model.  A JavaScript [number] is read as an exact rational
    ([Q]); equality of numbers is [Qeq] ([==]).  The rounding of binary64
    arithmetic is not part of this model: every operation is the exact
    one.  [bitDepth] is an integer ([Z]); the controls only produce
    integers.  [Math.round x] is [floor (x + 1/2)] (ties go up), which is
    what ECMAScript prescribes; [Math.floor] is [Qfloor].

    Division.  [x / 0] is 0 in [Q] and an infinity or NaN in JavaScript.
    The properties below that depend on a quotient assume its divisor
    positive: the sample rates are positive, the zoom is at least 1 and
    the bit depth at least 1, as the controls of [App.tsx] guarantee.

    Canvas.  A render is the list of the calls it makes on the 2D
    context, in order; the early returns for a missing canvas or context
    are not part of the model. *)

From Stdlib Require Import ZArith QArith Qround Qminmax Qabs Qpower.
From Stdlib Require Import List String Ascii Bool Lia Lqa.
Import ListNotations.

Local Open Scope Q_scope.

(** ** JavaScript primitives used by the sources *)

Module Js.

(** [Math.pow(2, n)] for an integer [n]. *)
Definition pow2 (n : Z) : Q := Qpower 2 n.

(** [Math.floor]. *)
Definition floor (x : Q) : Z := Qfloor x.

(** [Math.round]: the nearest integer, ties towards +infinity. *)
Definition round (x : Q) : Z := Qfloor (x + (1 # 2)).

Definition max (x y : Q) : Q := Qmax x y.
Definition min (x y : Q) : Q := Qmin x y.
Definition abs (x : Q) : Q := Qabs x.

(** [n.toString(2)] for an integer-valued number. *)
Fixpoint binDigits (p : positive) (acc : string) : string :=
  match p with
  | xH => String "1" acc
  | xO q => binDigits q (String "0" acc)
  | xI q => binDigits q (String "1" acc)
  end.

Definition toString2 (n : Z) : string :=
  match n with
  | Z0 => "0"%string
  | Zpos p => binDigits p EmptyString
  | Zneg p => String "-" (binDigits p EmptyString)
  end.

Fixpoint replicate (n : nat) (c : ascii) : string :=
  match n with
  | O => EmptyString
  | S k => String c (replicate k c)
  end.

(** [s.padStart(len, c)] with a one-character filler. *)
Definition padStart (s : string) (len : Z) (c : ascii) : string :=
  (replicate (Z.to_nat len - String.length s) c ++ s)%string.

End Js.

(** ** utils/audioUtils.ts *)

Definition quantizeValue (value : Q) (bitDepth : Z) : Q :=
  if (32 <=? bitDepth)%Z then value
  else
    let levels := Js.pow2 bitDepth in
    let maxVal := levels - 1 in
    let normalized := (value + 1) / 2 in
    let normalized := Js.max 0 (Js.min 1 normalized) in
    let discrete := Js.round (normalized * maxVal) in
    let quantizedNorm := inject_Z discrete / maxVal in
    (quantizedNorm * 2) - 1.

Definition getQuantizationError (original quantized : Q) : Q :=
  Js.abs (original - quantized).

(** The integer code that [formatBinary] prints. *)
Definition discreteCode (value : Q) (bitDepth : Z) : Z :=
  let levels := Js.pow2 bitDepth in
  let maxVal := levels - 1 in
  let normalized := (value + 1) / 2 in
  let normalized := Js.max 0 (Js.min 1 normalized) in
  Js.round (normalized * maxVal).

Definition formatBinary (value : Q) (bitDepth : Z) : string :=
  Js.padStart (Js.toString2 (discreteCode value bitDepth)) bitDepth "0".

(** ** Reading a binary code back (the decoder the round trip speaks of) *)

Definition bitValue (c : ascii) : Z :=
  if Ascii.eqb c "1" then 1%Z else 0%Z.

Fixpoint parseBinaryFrom (acc : Z) (s : string) : Z :=
  match s with
  | EmptyString => acc
  | String c rest => parseBinaryFrom (2 * acc + bitValue c) rest
  end.

(** The unsigned integer a string of binary digits denotes. *)
Definition parseBinary (s : string) : Z := parseBinaryFrom 0 s.

(** Rescaling a code to an amplitude: [code / (2^bitDepth - 1)] mapped
    from [0,1] to [-1,1]. *)
Definition rescaleCode (code : Z) (bitDepth : Z) : Q :=
  (inject_Z code / (Js.pow2 bitDepth - 1)) * 2 - 1.

Definition decodeBinary (s : string) (bitDepth : Z) : Q :=
  rescaleCode (parseBinary s) bitDepth.

(** ** The decoded audio and the component's props *)

(** An [AudioBuffer] as the sources read it: channel 0 and the native
    sample rate. *)
Record AudioBuffer := {
  channelData : list Q;
  sampleRate : Q
}.

(** [data[idx]] for an in-range index; [None] stands for [undefined]. *)
Definition getIndex (data : list Q) (idx : Z) : option Q :=
  if (idx <? 0)%Z then None else nth_error data (Z.to_nat idx).

Definition dataLength (data : list Q) : Z := Z.of_nat (List.length data).

Definition Qltb (x y : Q) : bool := negb (Qle_bool y x).

Record Props := {
  audioBuffer : option AudioBuffer;
  sampleRateCtx : Q;
  bitDepth : Z;
  zoom : Q;
  showAnalog : bool;
  showSampling : bool;
  showQuantization : bool;
  showError : bool;
  width : Q;
  height : Q
}.

(** ** components/WaveformCanvas.tsx: the stride planning *)

Definition timeOffset : Q := 0.

(** [windowSize = Math.floor(data.length / zoom)]. *)
Definition windowSize (len : Z) (zoom : Q) : Z :=
  Js.floor (inject_Z len / zoom).

(** [drawStep = Math.max(1, Math.floor(windowSize / 2000))]: the stride of
    the continuous curve. *)
Definition drawStep (wsize : Z) : Z :=
  Z.max 1 (Js.floor (inject_Z wsize / 2000)).

(** [skip = Math.max(1, realRate / sampleRateCtx)]: the stride of the
    discrete samples. *)
Definition skip (realRate sampleRateCtx : Q) : Q :=
  Js.max 1 (realRate / sampleRateCtx).

(** The derived window of one render pass. *)
Record RenderWindow := {
  startIndex : Z;
  sampleCount : Z;
  referenceStride : Z;
  samplingStride : Q
}.

Definition plan (sourceLength : Z) (nativeSampleRate targetSampleRate zoom : Q)
    : RenderWindow :=
  let wsize := windowSize sourceLength zoom in
  {| startIndex := Js.floor timeOffset;
     sampleCount := wsize;
     referenceStride := drawStep wsize;
     samplingStride := skip nativeSampleRate targetSampleRate |}.

(** ** components/WaveformCanvas.tsx: the canvas calls *)

(** The block of the effect that issues a call. *)
Inductive Block :=
| Background | Placeholder | Grid | ZeroLine | Analog | Sampling | Hold | Error.

(** The calls on the 2D context.  [Arc x y r] is the full circle
    [arc(x, y, r, 0, 2 * PI)]. *)
Inductive Cmd :=
| ClearRect (x y w h : Q)
| FillRect (x y w h : Q)
| FillStyle (s : string)
| StrokeStyle (s : string)
| LineWidth (n : Q)
| Font (s : string)
| TextAlign (s : string)
| BeginPath
| MoveTo (x y : Q)
| LineTo (x y : Q)
| Arc (x y r : Q)
| Stroke
| Fill
| FillText (s : string) (x y : Q).

Definition Call : Type := Block * Cmd.

(** [ampToY]: amplitude 1 is the top of the canvas, -1 the bottom. *)
Definition ampToY (height amp : Q) : Q :=
  height / 2 - (amp * height / 2).

(** The grid: [for (let i = 0; i <= levels; i++)]. *)
Definition gridLine (width height levels : Q) (i : Z) : list Call :=
  let y := height - (inject_Z i / levels) * height in
  [(Grid, MoveTo 0 y); (Grid, LineTo width y)].

Definition gridCounter (levels : Q) : list Z :=
  map Z.of_nat (seq 0 (Z.to_nat (Js.floor levels + 1))).

Definition drawGrid (p : Props) : list Call :=
  if showQuantization p && (bitDepth p <=? 5)%Z then
    let levels := Js.pow2 (bitDepth p) in
    [(Grid, StrokeStyle "#334155"); (Grid, LineWidth 1); (Grid, BeginPath)]
    ++ flat_map (gridLine (width p) (height p) levels) (gridCounter levels)
    ++ [(Grid, Stroke)]
  else [].

Definition drawZeroLine (p : Props) : list Call :=
  [(ZeroLine, StrokeStyle "#64748b"); (ZeroLine, LineWidth 1);
   (ZeroLine, BeginPath);
   (ZeroLine, MoveTo 0 (height p / 2));
   (ZeroLine, LineTo (width p) (height p / 2));
   (ZeroLine, Stroke)].

(** The continuous curve: [for (let i = 0; i < windowSize; i += drawStep)],
    with [x] accumulated along the way.  [fuel] bounds the number of
    iterations. *)
Fixpoint analogWalk (data : list Q) (height : Q) (wsize step : Z)
    (sliceWidth : Q) (fuel : nat) (i : Z) (x : Q) : list Call :=
  match fuel with
  | O => []
  | S fuel' =>
      if (i <? wsize)%Z then
        let idx := Js.floor (timeOffset + inject_Z i) in
        if (idx >=? dataLength data)%Z then []
        else
          match getIndex data idx with
          | None => []
          | Some v =>
              let y := ampToY height v in
              (Analog, if (i =? 0)%Z then MoveTo x y else LineTo x y)
              :: analogWalk data height wsize step sliceWidth fuel'
                   (i + step)%Z (x + sliceWidth * inject_Z step)
          end
      else []
  end.

Definition drawAnalog (p : Props) (data : list Q) : list Call :=
  if showAnalog p then
    let wsize := windowSize (dataLength data) (zoom p) in
    let sliceWidth := width p * 1 / inject_Z wsize in
    let step := drawStep wsize in
    [(Analog, StrokeStyle "#22c55e"); (Analog, LineWidth 2); (Analog, BeginPath)]
    ++ analogWalk data (height p) wsize step sliceWidth (Z.to_nat wsize) 0%Z 0
    ++ [(Analog, Stroke)]
  else [].

(** What one iteration of the sampling loop computes before it draws. *)
Record SamplePoint := {
  sp_i : Q;
  sp_idx : Z;
  sp_original : Q;
  sp_final : Q;
  sp_x : Q;
  sp_y : Q
}.

(** Lines 130-138: [None] is the [break]. *)
Definition samplePoint (p : Props) (data : list Q) (sliceWidth : Q) (i : Q)
    : option SamplePoint :=
  let idx := Js.floor (timeOffset + i) in
  if (idx >=? dataLength data)%Z then None
  else
    match getIndex data idx with
    | None => None
    | Some originalVal =>
        let finalVal :=
          if showQuantization p then quantizeValue originalVal (bitDepth p)
          else originalVal in
        let x := i * sliceWidth in
        let y := ampToY (height p) finalVal in
        Some {| sp_i := i; sp_idx := idx; sp_original := originalVal;
                sp_final := finalVal; sp_x := x; sp_y := y |}
    end.

(** [for (let i = 0; i < windowSize; i += skip)]: the visited points, in
    order. *)
Fixpoint sampleWalk (p : Props) (data : list Q) (wsize : Z)
    (sliceWidth step : Q) (fuel : nat) (i : Q) : list SamplePoint :=
  match fuel with
  | O => []
  | S fuel' =>
      if Qltb i (inject_Z wsize) then
        match samplePoint p data sliceWidth i with
        | None => []
        | Some pt =>
            pt :: sampleWalk p data wsize sliceWidth step fuel' (i + step)
        end
      else []
  end.

(** Lines 140-184: what one iteration draws. *)
Definition drawSample (p : Props) (sliceWidth step : Q) (pt : SamplePoint)
    : list Call :=
  let x := sp_x pt in
  let y := sp_y pt in
  (if showSampling p then
     [(Sampling, StrokeStyle "#3b82f6"); (Sampling, LineWidth 1);
      (Sampling, BeginPath);
      (Sampling, MoveTo x (height p / 2)); (Sampling, LineTo x y);
      (Sampling, Stroke);
      (Sampling, FillStyle "#60a5fa"); (Sampling, BeginPath);
      (Sampling, Arc x y 3); (Sampling, Fill)]
   else [])
  ++ (if showQuantization p then
        let nextI := sp_i pt + step in
        let nextX := Js.min (width p) (nextI * sliceWidth) in
        [(Hold, StrokeStyle "#f59e0b"); (Hold, LineWidth 2); (Hold, BeginPath);
         (Hold, MoveTo x y); (Hold, LineTo nextX y); (Hold, Stroke)]
      else [])
  ++ (if showError p then
        let originalY := ampToY (height p) (sp_original pt) in
        [(Error, StrokeStyle "#ef4444"); (Error, BeginPath);
         (Error, MoveTo x originalY); (Error, LineTo x y); (Error, Stroke)]
      else []).

(** The points the sampling loop visits for a loaded buffer. *)
Definition samplingPoints (p : Props) (buf : AudioBuffer) : list SamplePoint :=
  let data := channelData buf in
  let wsize := windowSize (dataLength data) (zoom p) in
  let step := skip (sampleRate buf) (sampleRateCtx p) in
  let sliceWidth := width p * 1 / inject_Z wsize in
  sampleWalk p data wsize sliceWidth step (Z.to_nat wsize) 0.

Definition drawSamples (p : Props) (buf : AudioBuffer) : list Call :=
  if showSampling p || showQuantization p then
    let data := channelData buf in
    let wsize := windowSize (dataLength data) (zoom p) in
    let step := skip (sampleRate buf) (sampleRateCtx p) in
    let sliceWidth := width p * 1 / inject_Z wsize in
    flat_map (drawSample p sliceWidth step) (samplingPoints p buf)
  else [].

(** The body of the effect: every canvas call of one render, in order. *)
Definition render (p : Props) : list Call :=
  [(Background, ClearRect 0 0 (width p) (height p));
   (Background, FillStyle "#1e293b");
   (Background, FillRect 0 0 (width p) (height p))]
  ++ match audioBuffer p with
     | None =>
         [(Placeholder, FillStyle "#94a3b8");
          (Placeholder, Font "20px sans-serif");
          (Placeholder, TextAlign "center");
          (Placeholder,
           FillText "Upload an audio file to start" (width p / 2) (height p / 2))]
     | Some buf =>
         drawGrid p ++ drawZeroLine p
         ++ drawAnalog p (channelData buf)
         ++ drawSamples p buf
     end.

(** The calls one block issued. *)
Definition blockEqb (a b : Block) : bool :=
  match a, b with
  | Background, Background | Placeholder, Placeholder | Grid, Grid
  | ZeroLine, ZeroLine | Analog, Analog | Sampling, Sampling
  | Hold, Hold | Error, Error => true
  | _, _ => false
  end.

Definition layer (b : Block) (calls : list Call) : list Cmd :=
  map snd (filter (fun c => blockEqb (fst c) b) calls).

(** The coordinates a call computes. *)
Definition position (c : Cmd) : option (Q * Q) :=
  match c with
  | MoveTo x y | LineTo x y | Arc x y _ | FillText _ x y => Some (x, y)
  | _ => None
  end.

Fixpoint positions (cs : list Cmd) : list (Q * Q) :=
  match cs with
  | [] => []
  | c :: rest =>
      match position c with
      | Some xy => xy :: positions rest
      | None => positions rest
      end
  end.

(** ** App.tsx: the preview table *)

(** One row, before the cells are printed with [toFixed]: [row_i] is the
    row number shown in the first column, [row_idx] the sample index the
    row reads. *)
Record PreviewRow := {
  row_i : Z;
  row_idx : Z;
  row_time : Q;
  row_original : Q;
  row_quantized : Q;
  row_binary : string
}.

Definition previewRow (buf : AudioBuffer) (sampleRateCtx : Q) (bitDepth : Z)
    (i : Z) : option PreviewRow :=
  let data := channelData buf in
  let realRate := sampleRate buf in
  let skip := Z.max 1 (Js.floor (realRate / sampleRateCtx)) in
  let idx := (i * skip)%Z in
  if (idx >=? dataLength data)%Z then None
  else
    match getIndex data idx with
    | None => None
    | Some val =>
        let quantized := quantizeValue val bitDepth in
        let levels := Js.pow2 bitDepth in
        let normalized := (quantized + 1) / 2 in
        let integerVal := Js.round (normalized * (levels - 1)) in
        Some {| row_i := i; row_idx := idx;
                row_time := inject_Z idx / realRate;
                row_original := val;
                row_quantized := quantized;
                row_binary :=
                  Js.padStart (Js.toString2 integerVal) bitDepth "0" |}
    end.

(** [Array.from({ length: 20 }).map((_, i) => ...)]. *)
Definition previewTable (buf : AudioBuffer) (sampleRateCtx : Q) (bitDepth : Z)
    : list (option PreviewRow) :=
  map (fun i => previewRow buf sampleRateCtx bitDepth (Z.of_nat i)) (seq 0 20).

(** ** hooks/useAudioProcessor.ts: the state of the hook *)

(** The state the hook keeps between events: the two React states, the
    ref to the last source node and, of the audio context, the source
    nodes that are sounding (started, and neither stopped nor ended) and
    the number of nodes created so far, which names the next one.  The
    clean-up effect that closes the context on unmount is not part of the
    model. *)
Record HookState := {
  hookBuffer : option AudioBuffer;
  isPlaying : bool;
  sourceNodeRef : option nat;
  sounding : list nat;
  created : nat
}.

Definition hookInit : HookState :=
  {| hookBuffer := None; isPlaying := false; sourceNodeRef := None;
     sounding := []; created := 0 |}.

(** What can happen to the hook: [loadFile] ends with a decoded buffer or
    with an error caught, [play] or [stop] is called, or a source node
    fires its [ended] event. *)
Inductive HookEvent :=
| DecodeOk (buf : AudioBuffer)
| DecodeFail
| Play
| Stop
| Ended (n : nat).

(** [node.stop()]: the node no longer sounds. *)
Definition stopNode (n : nat) (nodes : list nat) : list nat :=
  List.remove Nat.eq_dec n nodes.

Definition hookStep (s : HookState) (e : HookEvent) : HookState :=
  match e with
  | DecodeOk buf =>
      {| hookBuffer := Some buf; isPlaying := isPlaying s;
         sourceNodeRef := sourceNodeRef s; sounding := sounding s;
         created := created s |}
  | DecodeFail => s
  | Play =>
      match hookBuffer s with
      | None => s
      | Some _ =>
          let stopped :=
            match sourceNodeRef s with
            | Some old => stopNode old (sounding s)
            | None => sounding s
            end in
          let source := created s in
          {| hookBuffer := hookBuffer s; isPlaying := true;
             sourceNodeRef := Some source; sounding := source :: stopped;
             created := S (created s) |}
      end
  | Stop =>
      match sourceNodeRef s with
      | None => s
      | Some old =>
          {| hookBuffer := hookBuffer s; isPlaying := false;
             sourceNodeRef := sourceNodeRef s;
             sounding := stopNode old (sounding s);
             created := created s |}
      end
  | Ended n =>
      if (n <? created s)%nat then
        {| hookBuffer := hookBuffer s; isPlaying := false;
           sourceNodeRef := sourceNodeRef s;
           sounding := stopNode n (sounding s);
           created := created s |}
      else s
  end.

Definition hookRun (s : HookState) (events : list HookEvent) : HookState :=
  fold_left hookStep events s.

Definition isDecodeOk (e : HookEvent) : bool :=
  match e with DecodeOk _ => true | _ => false end.

(** ** Vocabulary of the properties *)

(** The clamped, normalised amplitude of lines 7-9. *)
Definition normalize (value : Q) : Q :=
  Js.max 0 (Js.min 1 ((value + 1) / 2)).

(** The input clamped to the nominal amplitude range. *)
Definition clampAmplitude (value : Q) : Q := Js.max (-1) (Js.min 1 value).

(** The quantization levels of a bit depth, by code. *)
Definition level (bitDepth : Z) (code : Z) : Q := rescaleCode code bitDepth.

(** A list of calls all issued by block [b]. *)
Definition issuedBy (b : Block) (calls : list Call) : Prop :=
  Forall (fun c => fst c = b) calls.

(** The running position after [k] iterations. *)
Fixpoint position_after (step : Q) (k : nat) (i : Q) : Q :=
  match k with
  | O => i
  | S k' => position_after step k' (i + step)
  end.

(** The x coordinates a list of calls computes. *)
Definition xcoords (cs : list Cmd) : list Q := map fst (positions cs).

(** Setting one layer toggle and leaving every other prop as it is. *)
Definition withShowAnalog (p : Props) (v : bool) : Props :=
  {| audioBuffer := audioBuffer p; sampleRateCtx := sampleRateCtx p;
     bitDepth := bitDepth p; zoom := zoom p;
     showAnalog := v; showSampling := showSampling p;
     showQuantization := showQuantization p; showError := showError p;
     width := width p; height := height p |}.

Definition withShowSampling (p : Props) (v : bool) : Props :=
  {| audioBuffer := audioBuffer p; sampleRateCtx := sampleRateCtx p;
     bitDepth := bitDepth p; zoom := zoom p;
     showAnalog := showAnalog p; showSampling := v;
     showQuantization := showQuantization p; showError := showError p;
     width := width p; height := height p |}.

Definition withShowQuantization (p : Props) (v : bool) : Props :=
  {| audioBuffer := audioBuffer p; sampleRateCtx := sampleRateCtx p;
     bitDepth := bitDepth p; zoom := zoom p;
     showAnalog := showAnalog p; showSampling := showSampling p;
     showQuantization := v; showError := showError p;
     width := width p; height := height p |}.

Definition withShowError (p : Props) (v : bool) : Props :=
  {| audioBuffer := audioBuffer p; sampleRateCtx := sampleRateCtx p;
     bitDepth := bitDepth p; zoom := zoom p;
     showAnalog := showAnalog p; showSampling := showSampling p;
     showQuantization := showQuantization p; showError := v;
     width := width p; height := height p |}.

(** Two points that differ at most in the amplitude drawn. *)
Definition sameSpot (a b : SamplePoint) : Prop :=
  sp_i a = sp_i b /\ sp_idx a = sp_idx b
  /\ sp_original a = sp_original b /\ sp_x a = sp_x b.

(** A string made of the digits 0 and 1 only. *)
Fixpoint isBinary (s : string) : bool :=
  match s with
  | EmptyString => true
  | String c rest => (Ascii.eqb c "0" || Ascii.eqb c "1") && isBinary rest
  end.

(** The stride of the preview table,
    [Math.max(1, Math.floor(realRate / sampleRateCtx))]. *)
Definition tableSkip (realRate ctxRate : Q) : Z :=
  Z.max 1 (Js.floor (realRate / ctxRate)).


(** The height at which the grid draws its line [i]. *)
Definition gridY (height levels : Q) (i : Z) : Q :=
  height - (inject_Z i / levels) * height.

(** Calls that move the pen and calls that draw a line to a point. *)
Definition isMoveTo (c : Call) : bool :=
  match snd c with MoveTo _ _ => true | _ => false end.

Definition isLineTo (c : Call) : bool :=
  match snd c with LineTo _ _ => true | _ => false end.

(** The points of the continuous curve of a render: the calls of the
    analog walk, without the style calls around them. *)
Definition analogPoints (p : Props) (data : list Q) : list Call :=
  let wsize := windowSize (dataLength data) (zoom p) in
  analogWalk data (height p) wsize (drawStep wsize)
    (width p * 1 / inject_Z wsize) (Z.to_nat wsize) 0%Z 0.

(** What the hook keeps true: while it reports playing, a buffer is
    loaded and a source node exists; and at most one node sounds, the one
    the ref holds. *)
Definition hookInvariant (s : HookState) : Prop :=
  (isPlaying s = true -> hookBuffer s <> None /\ sourceNodeRef s <> None)
  /\ (sounding s = []
      \/ exists n, sounding s = [n] /\ sourceNodeRef s = Some n).

(** A run of events in which no file is decoded. *)
Definition noDecode (events : list HookEvent) : bool :=
  forallb (fun e => negb (isDecodeOk e)) events.

(** ** Concrete inputs *)

(** Twenty samples rising from -1 in steps of 1/10, decoded at 44100 Hz. *)
Definition rampData : list Q :=
  map (fun k => inject_Z (Z.of_nat k) / 10 - 1) (seq 0 20).

Definition rampBuffer : AudioBuffer :=
  {| channelData := rampData; sampleRate := 44100 |}.

(** The props [App] passes, at a given target rate, bit depth and zoom,
    with the toggles at their initial values. *)
Definition appProps (buf : AudioBuffer) (rate : Q) (bits : Z) (z : Q) : Props :=
  {| audioBuffer := Some buf; sampleRateCtx := rate; bitDepth := bits;
     zoom := z; showAnalog := true; showSampling := true;
     showQuantization := true; showError := false;
     width := 800; height := 400 |}.

(** * Properties *)

Example quantize_demo_1 : quantizeValue (3 # 10) 2 == 1 # 3.
Proof. vm_compute. reflexivity. Qed.

Example quantize_demo_2 : quantizeValue 0 1 == 1.
Proof. vm_compute. reflexivity. Qed.

Example formatBinary_demo : formatBinary (3 # 10) 4 = "1010"%string.
Proof. vm_compute. reflexivity. Qed.

Example formatBinary_demo_pad : formatBinary (-1) 4 = "0000"%string.
Proof. vm_compute. reflexivity. Qed.

(** ** Arithmetic of the primitives *)

(** Linear arithmetic after turning division by two into a constant. *)
Ltac halves := unfold Qdiv in *; change (/ 2) with (1 # 2) in *.
Ltac qlin := halves; lra.

Section Primitives.

Lemma pow2_inject (b : Z) : (0 <= b)%Z -> Js.pow2 b == inject_Z (2 ^ b).
Proof.
  intros Hb. unfold Js.pow2. rewrite (Zpower_Qpower 2 b Hb). reflexivity.
Qed.

Lemma maxVal_inject (b : Z) :
  (0 <= b)%Z -> Js.pow2 b - 1 == inject_Z (2 ^ b - 1).
Proof.
  intros Hb. rewrite (pow2_inject b Hb).
  unfold Zminus. rewrite inject_Z_plus. reflexivity.
Qed.

Lemma maxVal_pos (b : Z) : (1 <= b)%Z -> 0 < Js.pow2 b - 1.
Proof.
  intros Hb. rewrite maxVal_inject by lia.
  change 0 with (inject_Z 0). rewrite <- Zlt_Qlt.
  assert (2 ^ 1 <= 2 ^ b)%Z by (apply Z.pow_le_mono_r; lia).
  change (2 ^ 1)%Z with 2%Z in *. lia.
Qed.

Lemma round_inject (n : Z) : Js.round (inject_Z n) = n.
Proof.
  unfold Js.round.
  apply Z.le_antisymm.
  - assert (H : inject_Z (Qfloor (inject_Z n + (1 # 2))) < inject_Z (n + 1)).
    { eapply Qle_lt_trans; [apply Qfloor_le|].
      rewrite inject_Z_plus. change (inject_Z 1) with 1. lra. }
    rewrite <- Zlt_Qlt in H. lia.
  - rewrite <- (Qfloor_Z n) at 1. apply Qfloor_resp_le. lra.
Qed.

Lemma round_mono (x y : Q) : x <= y -> (Js.round x <= Js.round y)%Z.
Proof. intros H. apply Qfloor_resp_le. lra. Qed.

Lemma round_comp (x y : Q) : x == y -> Js.round x = Js.round y.
Proof. intros H. unfold Js.round. rewrite H. reflexivity. Qed.

(** [Math.round] is within one half of its argument. *)
Lemma round_near (x : Q) :
  x - (1 # 2) < inject_Z (Js.round x) /\ inject_Z (Js.round x) <= x + (1 # 2).
Proof.
  unfold Js.round. split.
  - pose proof (Qlt_floor (x + (1 # 2))) as H.
    rewrite inject_Z_plus in H. change (inject_Z 1) with 1 in H. lra.
  - apply Qfloor_le.
Qed.

Lemma clamp_range (x : Q) : 0 <= Js.max 0 (Js.min 1 x) <= 1.
Proof.
  unfold Js.max, Js.min. split.
  - apply Q.le_max_l.
  - apply Q.max_lub; [lra | apply Q.le_min_l].
Qed.

Lemma clamp_inside (x : Q) : 0 <= x <= 1 -> Js.max 0 (Js.min 1 x) == x.
Proof.
  intros [H0 H1]. unfold Js.max, Js.min.
  rewrite (Q.min_r 1 x H1). apply Q.max_r; exact H0.
Qed.

Lemma clamp_below (x : Q) : x <= 0 -> Js.max 0 (Js.min 1 x) == 0.
Proof.
  intros H. unfold Js.max, Js.min.
  apply Q.max_l. rewrite Q.min_r; lra.
Qed.

Lemma clamp_above (x : Q) : 1 <= x -> Js.max 0 (Js.min 1 x) == 1.
Proof.
  intros H. unfold Js.max, Js.min.
  rewrite (Q.min_l 1 x H). apply Q.max_r. lra.
Qed.

Lemma clamp_mono (x y : Q) :
  x <= y -> Js.max 0 (Js.min 1 x) <= Js.max 0 (Js.min 1 y).
Proof.
  intros H. unfold Js.max, Js.min.
  apply Q.max_le_compat_l. apply Q.min_le_compat_l. exact H.
Qed.

End Primitives.

(** ** The quantizer below the 32-bit ceiling *)

Lemma discreteCode_normalize (v : Q) (b : Z) :
  discreteCode v b = Js.round (normalize v * (Js.pow2 b - 1)).
Proof. reflexivity. Qed.

Lemma quantizeValue_ceiling (v : Q) (b : Z) :
  (32 <= b)%Z -> quantizeValue v b = v.
Proof.
  intros Hb. unfold quantizeValue.
  destruct (32 <=? b)%Z eqn:E; [reflexivity | apply Z.leb_gt in E; lia].
Qed.

Lemma quantizeValue_code (v : Q) (b : Z) :
  (b < 32)%Z -> quantizeValue v b = level b (discreteCode v b).
Proof.
  intros Hb. unfold quantizeValue.
  destruct (32 <=? b)%Z eqn:E; [apply Z.leb_le in E; lia | reflexivity].
Qed.

Section Levels.

Variable b : Z.
Hypothesis Hb : (1 <= b)%Z.

Let m : Q := Js.pow2 b - 1.

Local Lemma m_pos : 0 < m.
Proof. apply maxVal_pos, Hb. Qed.

Local Lemma m_inject : m == inject_Z (2 ^ b - 1).
Proof. apply maxVal_inject. lia. Qed.

Lemma normalize_range (v : Q) : 0 <= normalize v <= 1.
Proof. apply clamp_range. Qed.

Lemma normalize_mono (v w : Q) : v <= w -> normalize v <= normalize w.
Proof. intros H. apply clamp_mono. qlin. Qed.

Lemma normalize_inside (v : Q) :
  -1 <= v <= 1 -> normalize v == (v + 1) / 2.
Proof. intros H. apply clamp_inside. qlin. Qed.

Lemma discreteCode_range (v : Q) : (0 <= discreteCode v b <= 2 ^ b - 1)%Z.
Proof.
  rewrite discreteCode_normalize. fold m.
  pose proof (normalize_range v) as [H0 H1]. pose proof m_pos as Hm.
  split.
  - rewrite <- (round_inject 0). apply round_mono.
    change (inject_Z 0) with 0. apply Qmult_le_0_compat; lra.
  - rewrite <- (round_inject (2 ^ b - 1)). apply round_mono.
    rewrite <- m_inject. rewrite <- (Qmult_1_l m) at 2.
    apply Qmult_le_compat_r; lra.
Qed.

Lemma discreteCode_mono (v w : Q) :
  v <= w -> (discreteCode v b <= discreteCode w b)%Z.
Proof.
  intros H. rewrite !discreteCode_normalize. fold m.
  apply round_mono.
  pose proof m_pos.
  apply Qmult_le_compat_r; [apply normalize_mono, H | lra].
Qed.


Lemma level_mono (d e : Z) : (d <= e)%Z -> level b d <= level b e.
Proof.
  intros H. unfold level, rescaleCode. fold m.
  rewrite Zle_Qle in H. pose proof m_pos as Hm.
  assert (inject_Z d / m <= inject_Z e / m).
  { apply Qmult_le_compat_r; [exact H | apply Qlt_le_weak, Qinv_lt_0_compat, Hm]. }
  lra.
Qed.

Lemma level_inj (d e : Z) : level b d == level b e -> d = e.
Proof.
  unfold level, rescaleCode. fold m. intros H. pose proof m_pos as Hm.
  assert (E : inject_Z d / m == inject_Z e / m) by lra.
  assert (E' : inject_Z d == inject_Z e).
  { assert (A : inject_Z d / m * m == inject_Z d) by (field; lra).
    assert (B : inject_Z e / m * m == inject_Z e) by (field; lra).
    rewrite <- A, <- B, E. reflexivity. }
  apply (proj1 (inject_Z_injective d e) E').
Qed.

Lemma level_range (d : Z) : (0 <= d <= 2 ^ b - 1)%Z -> -1 <= level b d <= 1.
Proof.
  intros [H0 H1]. unfold level, rescaleCode. fold m.
  pose proof m_pos as Hm. rewrite Zle_Qle in H0, H1.
  rewrite <- m_inject in H1. change (inject_Z 0) with 0 in H0.
  assert (0 <= inject_Z d / m) by (apply Qle_shift_div_l; lra).
  assert (inject_Z d / m <= 1) by (apply Qle_shift_div_r; lra).
  lra.
Qed.

Lemma level_bottom : level b 0 == -1.
Proof.
  unfold level, rescaleCode. fold m. pose proof m_pos.
  change (inject_Z 0) with 0. field. lra.
Qed.

Lemma level_top : level b (2 ^ b - 1) == 1.
Proof.
  unfold level, rescaleCode. fold m. rewrite <- m_inject.
  pose proof m_pos. field. lra.
Qed.

(** A level is read back as its own code. *)
Lemma discreteCode_level (d : Z) :
  (0 <= d <= 2 ^ b - 1)%Z -> discreteCode (level b d) b = d.
Proof.
  intros Hd. rewrite discreteCode_normalize. fold m.
  pose proof m_pos as Hm. pose proof (level_range d Hd) as Hr.
  rewrite <- (round_inject d) at 2. apply round_comp.
  rewrite (normalize_inside _ Hr).
  unfold level, rescaleCode. fold m. field. lra.
Qed.

Lemma discreteCode_clamp (v : Q) :
  discreteCode (clampAmplitude v) b = discreteCode v b.
Proof.
  rewrite !discreteCode_normalize. apply round_comp.
  apply Qmult_comp; [| reflexivity].
  unfold normalize, clampAmplitude.
  destruct (Qlt_le_dec v (-1)) as [Hlo | Hlo].
  - rewrite (clamp_below ((v + 1) / 2)) by qlin.
    assert (E : Js.max (-1) (Js.min 1 v) == -1).
    { unfold Js.max, Js.min. apply Q.max_l. rewrite Q.min_r; lra. }
    rewrite E. apply clamp_below. qlin.
  - destruct (Qlt_le_dec 1 v) as [Hhi | Hhi].
    + rewrite (clamp_above ((v + 1) / 2)) by qlin.
      assert (E : Js.max (-1) (Js.min 1 v) == 1).
      { unfold Js.max, Js.min. rewrite (Q.min_l 1 v) by lra.
        apply Q.max_r. lra. }
      rewrite E. apply clamp_above. qlin.
    + assert (E : Js.max (-1) (Js.min 1 v) == v).
      { unfold Js.max, Js.min. rewrite (Q.min_r 1 v) by lra.
        apply Q.max_r. lra. }
      rewrite E. reflexivity.
Qed.

(** The code is the nearest one: the level is within half a step of the
    normalised amplitude. *)
Lemma level_near (v : Q) :
  -1 <= v <= 1 ->
  Qabs (level b (discreteCode v b) - v) <= 1 / m.
Proof.
  intros Hv. pose proof m_pos as Hm.
  rewrite discreteCode_normalize. fold m.
  pose proof (round_near (normalize v * m)) as [Hlo Hhi].
  set (d := inject_Z (Js.round (normalize v * m))) in *.
  rewrite (normalize_inside v Hv) in Hlo, Hhi.
  unfold level, rescaleCode. fold m. fold d.
  assert (Hinv : 0 < / m) by (apply Qinv_lt_0_compat, Hm).
  assert (E : d / m * 2 - 1 - v == (d - (v + 1) / 2 * m) * (2 * / m))
    by (field; lra).
  rewrite E. apply Qabs_Qle_condition.
  assert (E1 : 1 / m == (1 # 2) * (2 * / m)) by (field; lra).
  rewrite E1. split.
  - setoid_replace (- ((1 # 2) * (2 * / m))) with ((- (1 # 2)) * (2 * / m))
      by ring.
    apply Qmult_le_compat_r; lra.
  - apply Qmult_le_compat_r; lra.
Qed.

End Levels.

(** ** The binary code and its decoder *)

Section BinaryCode.

Lemma parseBinaryFrom_app (s t : string) :
  forall acc,
    parseBinaryFrom acc (s ++ t) = parseBinaryFrom (parseBinaryFrom acc s) t.
Proof.
  induction s as [| c s IH]; intros acc; simpl; [reflexivity | apply IH].
Qed.

Lemma parseBinaryFrom_zeros (k : nat) :
  parseBinaryFrom 0 (Js.replicate k "0") = 0%Z.
Proof. induction k as [| k IH]; simpl; [reflexivity | exact IH]. Qed.

Lemma parseBinaryFrom_cons (c : ascii) (rest : string) (acc : Z) :
  parseBinaryFrom acc (String c rest)
  = parseBinaryFrom (2 * acc + bitValue c) rest.
Proof. reflexivity. Qed.

(** The digits of [p] extend the number read so far by [p]. *)
Lemma parseBinaryFrom_binDigits (p : positive) :
  forall (rest : string) (acc : Z),
    parseBinaryFrom acc (Js.binDigits p rest)
    = parseBinaryFrom (acc * 2 ^ Z.of_nat (Pos.size_nat p) + Zpos p) rest.
Proof.
  induction p as [q IH | q IH |]; intros rest acc.
  - change (Js.binDigits q~1 rest) with (Js.binDigits q (String "1" rest)).
    rewrite IH, parseBinaryFrom_cons. f_equal.
    change (bitValue "1") with 1%Z.
    change (Pos.size_nat q~1) with (S (Pos.size_nat q)).
    rewrite Nat2Z.inj_succ, Z.pow_succ_r by lia. lia.
  - change (Js.binDigits q~0 rest) with (Js.binDigits q (String "0" rest)).
    rewrite IH, parseBinaryFrom_cons. f_equal.
    change (bitValue "0") with 0%Z.
    change (Pos.size_nat q~0) with (S (Pos.size_nat q)).
    rewrite Nat2Z.inj_succ, Z.pow_succ_r by lia. lia.
  - change (Js.binDigits 1 rest) with (String "1" rest).
    rewrite parseBinaryFrom_cons. f_equal.
    change (bitValue "1") with 1%Z. change (Pos.size_nat 1) with 1%nat.
    change (2 ^ Z.of_nat 1)%Z with 2%Z. lia.
Qed.

Lemma parseBinary_toString2 (n : Z) :
  (0 <= n)%Z -> parseBinary (Js.toString2 n) = n.
Proof.
  intros Hn. unfold parseBinary. destruct n as [| p | p]; [reflexivity | | lia].
  simpl Js.toString2. rewrite parseBinaryFrom_binDigits. reflexivity.
Qed.

Lemma parseBinary_padStart (n len : Z) :
  (0 <= n)%Z -> parseBinary (Js.padStart (Js.toString2 n) len "0") = n.
Proof.
  intros Hn. unfold parseBinary, Js.padStart.
  rewrite parseBinaryFrom_app, parseBinaryFrom_zeros.
  apply parseBinary_toString2, Hn.
Qed.

Lemma length_replicate (k : nat) (c : ascii) :
  String.length (Js.replicate k c) = k.
Proof. induction k as [| k IH]; simpl; [reflexivity | now rewrite IH]. Qed.

Lemma length_app (s t : string) :
  String.length (s ++ t) = (String.length s + String.length t)%nat.
Proof. induction s as [| c s IH]; simpl; [reflexivity | now rewrite IH]. Qed.

Lemma length_binDigits (p : positive) :
  forall rest,
    String.length (Js.binDigits p rest)
    = (Pos.size_nat p + String.length rest)%nat.
Proof.
  induction p as [q IH | q IH |]; intros rest; simpl;
    try rewrite IH; simpl; lia.
Qed.

Lemma size_nat_bound (p : positive) :
  forall k : nat, (Zpos p < 2 ^ Z.of_nat k)%Z -> (Pos.size_nat p <= k)%nat.
Proof.
  induction p as [q IH | q IH |]; intros k Hk; simpl.
  - destruct k as [| k]; [simpl in Hk; lia |].
    rewrite Nat2Z.inj_succ, Z.pow_succ_r in Hk by lia.
    apply le_n_S, IH. lia.
  - destruct k as [| k]; [simpl in Hk; lia |].
    rewrite Nat2Z.inj_succ, Z.pow_succ_r in Hk by lia.
    apply le_n_S, IH. lia.
  - destruct k as [| k]; [simpl in Hk; lia | lia].
Qed.

(** Codes below [2^len] print as exactly [len] digits. *)
Lemma length_padStart_code (n len : Z) :
  (1 <= len)%Z -> (0 <= n < 2 ^ len)%Z ->
  Z.of_nat (String.length (Js.padStart (Js.toString2 n) len "0")) = len.
Proof.
  intros Hlen [Hn0 Hn1]. unfold Js.padStart.
  rewrite length_app, length_replicate.
  assert (Hs : (String.length (Js.toString2 n) <= Z.to_nat len)%nat).
  { destruct n as [| p | p]; [simpl; lia | | lia].
    simpl Js.toString2. rewrite length_binDigits. simpl.
    rewrite Nat.add_0_r. apply size_nat_bound. rewrite Z2Nat.id by lia.
    exact Hn1. }
  lia.
Qed.

End BinaryCode.

(** ** The quantizer: claims *)



(** C5, amended.  For every amplitude, in or out of [-1,1], and every bit
    depth in [1,31], [quantizeValue] returns a value in [-1,1], the same
    one it returns for the input clamped to [-1,1]. *)
Theorem quantize_clamps (a : Q) (b : Z) :
  (1 <= b <= 31)%Z ->
  -1 <= quantizeValue a b <= 1
  /\ quantizeValue a b = quantizeValue (clampAmplitude a) b.
Proof.
  intros [Hb1 Hb2]. rewrite !quantizeValue_code by lia. split.
  - apply level_range; [exact Hb1 | apply discreteCode_range, Hb1].
  - rewrite discreteCode_clamp by exact Hb1. reflexivity.
Qed.

Lemma quantize_clamps_witness :
  -1 <= quantizeValue (5 # 2) 4 <= 1
  /\ quantizeValue (5 # 2) 4 = quantizeValue (clampAmplitude (5 # 2)) 4.
Proof. apply (quantize_clamps (5 # 2) 4). lia. Defined.

(** C5 as stated fails at the ceiling: at 32 bits the out-of-range
    amplitude 2 is returned as it is, outside [-1,1] and different from
    the quantized clamped input 1. *)
Lemma quantize_clamps_fails_at_32 :
  (1 <= 32 <= 32)%Z
  /\ quantizeValue 2 32 == 2
  /\ ~ (-1 <= quantizeValue 2 32 <= 1)
  /\ ~ quantizeValue 2 32 == quantizeValue (clampAmplitude 2) 32.
Proof.
  split; [lia |]. split; [reflexivity |]. split.
  - intros [_ H]. vm_compute in H. apply H. reflexivity.
  - intros H. vm_compute in H. discriminate H.
Qed.

(** C6, amended.  For every amplitude and every bit depth in [1,31],
    reading the string of [formatBinary] back as an unsigned binary number
    and rescaling it gives exactly the output of [quantizeValue]; the
    string has [bitDepth] digits. *)
Theorem formatBinary_round_trip (a : Q) (b : Z) :
  (1 <= b <= 31)%Z ->
  parseBinary (formatBinary a b) = discreteCode a b
  /\ decodeBinary (formatBinary a b) b = quantizeValue a b
  /\ Z.of_nat (String.length (formatBinary a b)) = b.
Proof.
  intros [Hb1 Hb2]. pose proof (discreteCode_range b Hb1 a) as Hd.
  assert (E : parseBinary (formatBinary a b) = discreteCode a b).
  { unfold formatBinary. apply parseBinary_padStart. lia. }
  repeat split.
  - exact E.
  - unfold decodeBinary. rewrite E, quantizeValue_code by lia. reflexivity.
  - unfold formatBinary. apply length_padStart_code; lia.
Qed.

Lemma formatBinary_round_trip_witness :
  parseBinary (formatBinary (3 # 10) 4) = discreteCode (3 # 10) 4
  /\ decodeBinary (formatBinary (3 # 10) 4) 4 = quantizeValue (3 # 10) 4
  /\ Z.of_nat (String.length (formatBinary (3 # 10) 4)) = 4%Z.
Proof. apply (formatBinary_round_trip (3 # 10) 4). lia. Defined.

(** C6 as stated fails at the valid bit depth 32: [quantizeValue 0 32] is
    0, while the code printed by [formatBinary 0 32] is 2^31, which
    rescales to [1/(2^32 - 1)]. *)
Lemma formatBinary_round_trip_fails_at_32 :
  -1 <= 0 <= 1 /\ (1 <= 32 <= 32)%Z
  /\ parseBinary (formatBinary 0 32) = (2 ^ 31)%Z
  /\ decodeBinary (formatBinary 0 32) 32 == 1 / inject_Z (2 ^ 32 - 1)
  /\ quantizeValue 0 32 == 0
  /\ ~ decodeBinary (formatBinary 0 32) 32 == quantizeValue 0 32.
Proof.
  split; [split; unfold Qle; simpl; lia |]. split; [lia |].
  split; [vm_compute; reflexivity |]. split; [vm_compute; reflexivity |].
  split; [reflexivity |].
  intros H. vm_compute in H. discriminate H.
Qed.

(** C7.  For a fixed bit depth in [1,32] (and above), [quantizeValue] is
    monotone: [a1 < a2] gives [quantizeValue a1 b <= quantizeValue a2 b]. *)
Theorem quantize_monotone (a1 a2 : Q) (b : Z) :
  (1 <= b)%Z -> a1 < a2 -> quantizeValue a1 b <= quantizeValue a2 b.
Proof.
  intros Hb Hlt. destruct (Z_lt_le_dec b 32) as [Hlo | Hhi].
  - rewrite !quantizeValue_code by exact Hlo.
    apply level_mono; [exact Hb |].
    apply discreteCode_mono; [exact Hb | apply Qlt_le_weak, Hlt].
  - rewrite !quantizeValue_ceiling by exact Hhi. apply Qlt_le_weak, Hlt.
Qed.

Lemma quantize_monotone_witness :
  quantizeValue (-(1 # 5)) 3 <= quantizeValue (3 # 10) 3.
Proof.
  apply (quantize_monotone (-(1 # 5)) (3 # 10) 3).
  - lia.
  - unfold Qlt; simpl; lia.
Defined.

(** C8.  Quantization is idempotent: for every amplitude and every bit
    depth in [1,32] (and above), quantizing a quantized value returns
    it. *)
Theorem quantize_idempotent (a : Q) (b : Z) :
  (1 <= b)%Z -> quantizeValue (quantizeValue a b) b == quantizeValue a b.
Proof.
  intros Hb. destruct (Z_lt_le_dec b 32) as [Hlo | Hhi].
  - rewrite (quantizeValue_code a b) by exact Hlo.
    rewrite (quantizeValue_code (level b (discreteCode a b)) b) by exact Hlo.
    rewrite discreteCode_level;
      [reflexivity | exact Hb | apply discreteCode_range, Hb].
  - rewrite !quantizeValue_ceiling by exact Hhi. reflexivity.
Qed.

Lemma quantize_idempotent_witness :
  quantizeValue (quantizeValue (3 # 10) 3) 3 == quantizeValue (3 # 10) 3.
Proof. apply (quantize_idempotent (3 # 10) 3). lia. Defined.

(** C9.  At a bit depth of 32 or more the quantizer returns its input
    unchanged. *)
Theorem quantize_identity_at_ceiling (a : Q) (b : Z) :
  (32 <= b)%Z -> quantizeValue a b = a.
Proof. apply quantizeValue_ceiling. Qed.

Lemma quantize_identity_at_ceiling_witness : quantizeValue (7 # 3) 32 = 7 # 3.
Proof. apply (quantize_identity_at_ceiling (7 # 3) 32). lia. Defined.

(** C10.  For every bit depth in [1,31] the full-scale amplitudes are
    levels (the lowest and the highest code) and fixed points:
    [quantizeValue (-1) b == -1] and [quantizeValue 1 b == 1]. *)
Theorem quantize_full_scale (b : Z) :
  (1 <= b <= 31)%Z ->
  quantizeValue (-1) b == -1 /\ quantizeValue 1 b == 1
  /\ level b 0 == -1 /\ level b (2 ^ b - 1) == 1
  /\ discreteCode (-1) b = 0%Z /\ discreteCode 1 b = (2 ^ b - 1)%Z.
Proof.
  intros [Hb1 Hb2].
  assert (Hm : Js.pow2 b - 1 == inject_Z (2 ^ b - 1))
    by (apply maxVal_inject; lia).
  assert (Elo : discreteCode (-1) b = 0%Z).
  { rewrite discreteCode_normalize.
    transitivity (Js.round (inject_Z 0)); [| apply round_inject].
    apply round_comp. unfold normalize.
    rewrite clamp_below by (unfold Qle; simpl; lia).
    change (inject_Z 0) with 0. ring. }
  assert (Ehi : discreteCode 1 b = (2 ^ b - 1)%Z).
  { rewrite discreteCode_normalize.
    transitivity (Js.round (inject_Z (2 ^ b - 1))); [| apply round_inject].
    apply round_comp. unfold normalize.
    rewrite clamp_above by (unfold Qle; simpl; lia).
    rewrite Hm. ring. }
  rewrite !quantizeValue_code by lia. rewrite Elo, Ehi.
  repeat split; try reflexivity;
    try (apply level_bottom, Hb1); try (apply level_top, Hb1).
Qed.

Lemma quantize_full_scale_witness :
  quantizeValue (-1) 5 == -1 /\ quantizeValue 1 5 == 1
  /\ level 5 0 == -1 /\ level 5 (2 ^ 5 - 1) == 1
  /\ discreteCode (-1) 5 = 0%Z /\ discreteCode 1 5 = (2 ^ 5 - 1)%Z.
Proof. apply (quantize_full_scale 5). lia. Defined.

(** ** The strides *)

Lemma skip_ge_1 (realRate ctxRate : Q) : 1 <= skip realRate ctxRate.
Proof. unfold skip, Js.max. apply Q.le_max_l. Qed.

Lemma drawStep_ge_1 (wsize : Z) : (1 <= drawStep wsize)%Z.
Proof. unfold drawStep. apply Z.le_max_l. Qed.

Lemma drawStep_small_window (wsize : Z) :
  (wsize < 4000)%Z -> drawStep wsize = 1%Z.
Proof.
  intros H. unfold drawStep, Js.floor.
  assert (Hf : (Qfloor (inject_Z wsize / 2000) < 2)%Z).
  { rewrite Zlt_Qlt. eapply Qle_lt_trans; [apply Qfloor_le |].
    apply Qlt_shift_div_r; [reflexivity |].
    change (inject_Z 2 * 2000) with (inject_Z 4000).
    rewrite <- Zlt_Qlt. exact H. }
  lia.
Qed.

(** C3, amended.  For positive rates and a zoom of at least 1, both
    strides are at least 1, and the reference stride is at most the
    sampling stride exactly when [floor (sampleCount / 2000)] is; this is
    the case whenever the window holds fewer than 4000 samples, where the
    reference stride is 1. *)
Theorem reference_stride_vs_sampling_stride
    (sourceLength : Z) (nativeSampleRate targetSampleRate zoom : Q) :
  0 < nativeSampleRate -> 0 < targetSampleRate -> 1 <= zoom ->
  let w := plan sourceLength nativeSampleRate targetSampleRate zoom in
  (1 <= referenceStride w)%Z
  /\ 1 <= samplingStride w
  /\ (inject_Z (referenceStride w) <= samplingStride w
      <-> inject_Z (Js.floor (inject_Z (sampleCount w) / 2000))
          <= samplingStride w)
  /\ ((sampleCount w < 4000)%Z ->
      referenceStride w = 1%Z
      /\ inject_Z (referenceStride w) <= samplingStride w).
Proof.
  intros _ _ _ w. subst w. unfold plan.
  cbn [referenceStride samplingStride sampleCount].
  set (ws := windowSize sourceLength zoom).
  pose proof (skip_ge_1 nativeSampleRate targetSampleRate) as Hs.
  set (s := skip nativeSampleRate targetSampleRate) in *.
  split; [apply drawStep_ge_1 |]. split; [exact Hs |]. split.
  - unfold drawStep. set (f := Js.floor (inject_Z ws / 2000)).
    destruct (Z.max_spec 1 f) as [[Hlt E] | [Hle E]]; rewrite E.
    + reflexivity.
    + split; intros H.
      * apply Qle_trans with (inject_Z 1);
          [rewrite <- Zle_Qle; exact Hle | exact Hs].
      * exact Hs.
  - intros Hsmall. rewrite (drawStep_small_window ws Hsmall).
    split; [reflexivity | exact Hs].
Qed.

Lemma reference_stride_vs_sampling_stride_witness :
  let w := plan 44100 44100 4410 50 in
  (1 <= referenceStride w)%Z
  /\ 1 <= samplingStride w
  /\ (inject_Z (referenceStride w) <= samplingStride w
      <-> inject_Z (Js.floor (inject_Z (sampleCount w) / 2000))
          <= samplingStride w)
  /\ ((sampleCount w < 4000)%Z ->
      referenceStride w = 1%Z
      /\ inject_Z (referenceStride w) <= samplingStride w).
Proof.
  apply (reference_stride_vs_sampling_stride 44100 44100 4410 50).
  - reflexivity.
  - reflexivity.
  - unfold Qle; simpl; lia.
Defined.

(** In that window of 882 samples the premise of the last part holds. *)
Example small_window_strides :
  let w := plan 44100 44100 4410 50 in
  sampleCount w = 882%Z /\ referenceStride w = 1%Z /\ samplingStride w == 10.
Proof. cbv zeta. repeat split; vm_compute; reflexivity. Qed.

(** C3 as stated fails: a window of 8000 samples at equal native and
    target rates is drawn with reference stride 4 and sampling stride 1. *)
Lemma reference_stride_exceeds_sampling_stride :
  let w := plan 8000 44100 44100 1 in
  0 < 44100 /\ 1 <= 1
  /\ referenceStride w = 4%Z
  /\ samplingStride w == 1
  /\ ~ inject_Z (referenceStride w) <= samplingStride w.
Proof.
  cbv zeta. split; [reflexivity |]. split; [unfold Qle; simpl; lia |].
  split; [vm_compute; reflexivity |]. split; [vm_compute; reflexivity |].
  intros H. vm_compute in H. apply H. reflexivity.
Qed.

(** ** Layers of a render *)

Section Layers.

Lemma layer_app (b : Block) (xs ys : list Call) :
  layer b (xs ++ ys) = layer b xs ++ layer b ys.
Proof. unfold layer. rewrite filter_app, map_app. reflexivity. Qed.

Lemma layer_flat_map {A : Type} (b : Block) (f : A -> list Call) (l : list A) :
  layer b (flat_map f l) = flat_map (fun a => layer b (f a)) l.
Proof.
  induction l as [| a l IH]; simpl; [reflexivity |].
  rewrite layer_app, IH. reflexivity.
Qed.

Lemma positions_app (xs ys : list Cmd) :
  positions (xs ++ ys) = positions xs ++ positions ys.
Proof.
  induction xs as [| c xs IH]; simpl; [reflexivity |].
  destruct (position c); rewrite IH; reflexivity.
Qed.

Lemma blockEqb_eq (a b : Block) : blockEqb a b = true <-> a = b.
Proof. destruct a, b; simpl; split; intros H; congruence. Qed.

Lemma layer_other (b b' : Block) (calls : list Call) :
  issuedBy b calls -> b' <> b -> layer b' calls = [].
Proof.
  intros H Hne. induction H as [| c calls Hc _ IH]; [reflexivity |].
  unfold layer in *. simpl.
  destruct (blockEqb (fst c) b') eqn:E; [| exact IH].
  apply blockEqb_eq in E. congruence.
Qed.

Lemma issuedBy_app (b : Block) (xs ys : list Call) :
  issuedBy b xs -> issuedBy b ys -> issuedBy b (xs ++ ys).
Proof. intros Hx Hy. apply Forall_app. split; assumption. Qed.

Lemma analogWalk_issued (data : list Q) (h : Q) (wsize step : Z) (sw : Q)
    (fuel : nat) :
  forall i x, issuedBy Analog (analogWalk data h wsize step sw fuel i x).
Proof.
  induction fuel as [| fuel IH]; intros i x; simpl; [constructor |].
  destruct (i <? wsize)%Z; [| constructor].
  destruct (_ >=? _)%Z; [constructor |].
  destruct (getIndex data _); [| constructor].
  constructor; [reflexivity | apply IH].
Qed.

Lemma drawAnalog_issued (p : Props) (data : list Q) :
  issuedBy Analog (drawAnalog p data).
Proof.
  unfold drawAnalog. destruct (showAnalog p); [| constructor].
  apply issuedBy_app; [repeat constructor |].
  apply issuedBy_app; [apply analogWalk_issued | repeat constructor].
Qed.

Lemma drawGrid_issued (p : Props) : issuedBy Grid (drawGrid p).
Proof.
  unfold drawGrid. destruct (_ && _); [| constructor].
  apply issuedBy_app; [repeat constructor |].
  apply issuedBy_app; [| repeat constructor].
  induction (gridCounter _) as [| i l IH]; simpl; [constructor |].
  repeat constructor. exact IH.
Qed.

End Layers.

(** ** The sampling walk *)

Section SamplingWalk.

(** The walk reads the props only through the quantization switch, the
    bit depth and the canvas height. *)
Lemma samplePoint_ext (p q : Props) (data : list Q) (sw i : Q) :
  showQuantization p = showQuantization q ->
  bitDepth p = bitDepth q ->
  height p = height q ->
  samplePoint p data sw i = samplePoint q data sw i.
Proof.
  intros Hq Hb Hh. unfold samplePoint. rewrite Hq, Hb, Hh. reflexivity.
Qed.

Lemma sampleWalk_ext (p q : Props) (data : list Q) (wsize : Z) (sw step : Q)
    (fuel : nat) :
  showQuantization p = showQuantization q ->
  bitDepth p = bitDepth q ->
  height p = height q ->
  forall i,
    sampleWalk p data wsize sw step fuel i
    = sampleWalk q data wsize sw step fuel i.
Proof.
  intros Hq Hb Hh. induction fuel as [| fuel IH]; intros i; simpl;
    [reflexivity |].
  rewrite (samplePoint_ext p q data sw i Hq Hb Hh), IH. reflexivity.
Qed.

Lemma Qltb_lt (x y : Q) : Qltb x y = true <-> x < y.
Proof.
  unfold Qltb. rewrite negb_true_iff. split; intros H.
  - apply Qnot_le_lt. intros Hle. apply Qle_bool_iff in Hle. congruence.
  - destruct (Qle_bool y x) eqn:E; [| reflexivity].
    apply Qle_bool_iff in E. exfalso. apply (Qlt_not_le _ _ H E).
Qed.

Lemma Qltb_ge (x y : Q) : Qltb x y = false <-> y <= x.
Proof.
  unfold Qltb. rewrite negb_false_iff. apply Qle_bool_iff.
Qed.

(** With a stride of at least 1 the loop ends within [windowSize]
    iterations: more fuel than that changes nothing. *)
Lemma sampleWalk_fuel (p : Props) (data : list Q) (wsize : Z) (sw step : Q) :
  1 <= step ->
  forall (fuel extra : nat) (i : Q),
    inject_Z wsize - i <= inject_Z (Z.of_nat fuel) ->
    sampleWalk p data wsize sw step (fuel + extra) i
    = sampleWalk p data wsize sw step fuel i.
Proof.
  intros Hstep. induction fuel as [| fuel IH]; intros extra i Hi.
  - change (inject_Z (Z.of_nat 0)) with 0 in Hi.
    destruct extra as [| extra]; [reflexivity |]. simpl.
    assert (E : Qltb i (inject_Z wsize) = false) by (apply Qltb_ge; lra).
    rewrite E. reflexivity.
  - simpl. destruct (Qltb i (inject_Z wsize)); [| reflexivity].
    destruct (samplePoint p data sw i); [| reflexivity].
    f_equal. apply IH.
    rewrite Nat2Z.inj_succ in Hi. unfold Z.succ in Hi.
    rewrite inject_Z_plus in Hi. change (inject_Z 1) with 1 in Hi. lra.
Qed.

Lemma samplingPoints_fuel (p : Props) (buf : AudioBuffer) (extra : nat) :
  let data := channelData buf in
  let wsize := windowSize (dataLength data) (zoom p) in
  sampleWalk p data wsize (width p * 1 / inject_Z wsize)
    (skip (sampleRate buf) (sampleRateCtx p)) (Z.to_nat wsize + extra) 0
  = samplingPoints p buf.
Proof.
  intros data wsize. unfold samplingPoints. fold data. fold wsize.
  apply sampleWalk_fuel; [apply skip_ge_1 |].
  destruct (Z_lt_le_dec wsize 0) as [Hneg | Hpos].
  - assert (E : Z.to_nat wsize = 0%nat) by lia. rewrite E.
    change (inject_Z (Z.of_nat 0)) with 0.
    rewrite Zlt_Qlt in Hneg. change (inject_Z 0) with 0 in Hneg. lra.
  - rewrite Z2Nat.id by exact Hpos. lra.
Qed.

Lemma position_after_eq (step : Q) (k : nat) :
  forall i, position_after step k i == i + inject_Z (Z.of_nat k) * step.
Proof.
  induction k as [| k IH]; intros i.
  - simpl. change (inject_Z 0) with 0. ring.
  - cbn [position_after]. rewrite IH, Nat2Z.inj_succ. unfold Z.succ.
    rewrite inject_Z_plus. change (inject_Z 1) with 1. ring.
Qed.

(** The [k]-th visited point is the one computed at the [k]-th running
    position, inside the window. *)
Lemma sampleWalk_nth (p : Props) (data : list Q) (wsize : Z) (sw step : Q)
    (fuel : nat) :
  forall (k : nat) (i : Q) (pt : SamplePoint),
    nth_error (sampleWalk p data wsize sw step fuel i) k = Some pt ->
    samplePoint p data sw (position_after step k i) = Some pt
    /\ position_after step k i < inject_Z wsize.
Proof.
  induction fuel as [| fuel IH]; intros k i pt H.
  - destruct k; discriminate H.
  - simpl in H. destruct (Qltb i (inject_Z wsize)) eqn:Ew;
      [| destruct k; discriminate H].
    destruct (samplePoint p data sw i) as [pt0 |] eqn:Ep;
      [| destruct k; discriminate H].
    destruct k as [| k].
    + simpl in H. injection H as <-. split; [exact Ep |].
      apply Qltb_lt, Ew.
    + simpl in H. apply IH in H. exact H.
Qed.

End SamplingWalk.

(** ** The preview table against the chart *)

Section TableAndChart.

(** The table's stride is the chart's stride rounded down. *)
Lemma table_skip_floor (realRate ctxRate : Q) :
  Z.max 1 (Js.floor (realRate / ctxRate)) = Js.floor (skip realRate ctxRate).
Proof.
  unfold skip, Js.max, Js.floor.
  destruct (Q.max_spec 1 (realRate / ctxRate)) as [[Hlt E] | [Hle E]];
    rewrite E.
  - assert (H : (Qfloor 1 <= Qfloor (realRate / ctxRate))%Z)
      by (apply Qfloor_resp_le, Qlt_le_weak, Hlt).
    change (Qfloor 1) with 1%Z in H. lia.
  - assert (H : (Qfloor (realRate / ctxRate) <= Qfloor 1)%Z)
      by (apply Qfloor_resp_le, Hle).
    change (Qfloor 1) with 1%Z in *. lia.
Qed.


(** With a whole stride, the chart's [k]-th running position is the
    sample index [k * stride]. *)
Lemma whole_stride_index (step : Q) (k : nat) :
  inject_Z (Js.floor step) == step ->
  Js.floor (timeOffset + position_after step k 0)
  = (Z.of_nat k * Js.floor step)%Z.
Proof.
  intros Hwhole. unfold Js.floor in *.
  rewrite <- (Qfloor_Z (Z.of_nat k * Qfloor step)).
  apply Qfloor_comp. rewrite position_after_eq, inject_Z_mult, Hwhole.
  unfold timeOffset. ring.
Qed.

End TableAndChart.




(** ** The layer toggles *)

Section Toggles.

Lemma flat_map_pointwise {A B : Type} (f g : A -> list B) (l : list A) :
  (forall a, f a = g a) -> flat_map f l = flat_map g l.
Proof.
  intros H. induction l as [| a l IH]; simpl; [reflexivity |].
  rewrite H, IH. reflexivity.
Qed.

Lemma flat_map_related {A B : Type} (R : A -> A -> Prop)
    (f g : A -> list B) (l l' : list A) :
  Forall2 R l l' -> (forall a a', R a a' -> f a = g a') ->
  flat_map f l = flat_map g l'.
Proof.
  intros HR H. induction HR as [| a a' l l' Ha _ IH]; simpl; [reflexivity |].
  rewrite (H a a' Ha), IH. reflexivity.
Qed.

Lemma xcoords_flat_map {A : Type} (b : Block) (f : A -> list Call)
    (l : list A) :
  xcoords (layer b (flat_map f l))
  = flat_map (fun a => xcoords (layer b (f a))) l.
Proof.
  unfold xcoords. induction l as [| a l IH]; simpl; [reflexivity |].
  rewrite layer_app, positions_app, map_app, IH. reflexivity.
Qed.

(** Whatever the toggles, the walk visits the same places. *)
Lemma sampleWalk_spots (p q : Props) (data : list Q) (wsize : Z)
    (sw step : Q) (fuel : nat) :
  forall i,
    Forall2 sameSpot (sampleWalk p data wsize sw step fuel i)
                     (sampleWalk q data wsize sw step fuel i).
Proof.
  induction fuel as [| fuel IH]; intros i; simpl; [constructor |].
  destruct (Qltb i (inject_Z wsize)); [| constructor].
  unfold samplePoint.
  destruct (_ >=? _)%Z; [constructor |].
  destruct (getIndex data _); [| constructor].
  constructor; [repeat split | apply IH].
Qed.

Variable p : Props.
Variable v : bool.

(** The blocks outside the sampling loop do not read the sampling and
    error toggles, and only the grid reads the quantization toggle. *)
Lemma drawSample_without_analog (sw step : Q) (pt : SamplePoint) :
  drawSample (withShowAnalog p v) sw step pt = drawSample p sw step pt.
Proof. reflexivity. Qed.

Lemma drawSamples_without_analog (buf : AudioBuffer) :
  drawSamples (withShowAnalog p v) buf = drawSamples p buf.
Proof.
  unfold drawSamples, samplingPoints. cbn [withShowAnalog showSampling
    showQuantization zoom width sampleRateCtx].
  destruct (showSampling p || showQuantization p); [| reflexivity].
  rewrite (sampleWalk_ext (withShowAnalog p v) p) by reflexivity.
  apply flat_map_pointwise. intros pt. reflexivity.
Qed.

Lemma drawSample_layer_error (b : Block) (sw step : Q) (pt : SamplePoint) :
  b <> Error ->
  layer b (drawSample (withShowError p v) sw step pt)
  = layer b (drawSample p sw step pt).
Proof.
  intros Hb. unfold drawSample.
  cbn [withShowError showSampling showQuantization showError width height].
  rewrite !layer_app. f_equal. f_equal.
  destruct v, (showError p), b; try reflexivity; congruence.
Qed.

Lemma drawSample_layer_sampling (b : Block) (sw step : Q) (pt : SamplePoint) :
  b <> Sampling ->
  layer b (drawSample (withShowSampling p v) sw step pt)
  = layer b (drawSample p sw step pt).
Proof.
  intros Hb. unfold drawSample.
  cbn [withShowSampling showSampling showQuantization showError width height].
  rewrite !layer_app. f_equal.
  destruct v, (showSampling p), b; try reflexivity; congruence.
Qed.

Lemma drawSamples_layer_error (b : Block) (buf : AudioBuffer) :
  b <> Error ->
  layer b (drawSamples (withShowError p v) buf) = layer b (drawSamples p buf).
Proof.
  intros Hb. unfold drawSamples, samplingPoints. cbn [withShowError
    showSampling showQuantization zoom width sampleRateCtx].
  destruct (showSampling p || showQuantization p); [| reflexivity].
  rewrite (sampleWalk_ext (withShowError p v) p) by reflexivity.
  rewrite !layer_flat_map. apply flat_map_pointwise. intros pt.
  apply drawSample_layer_error, Hb.
Qed.

Lemma drawSamples_layer_sampling (b : Block) (buf : AudioBuffer) :
  b <> Sampling -> showQuantization p = true ->
  layer b (drawSamples (withShowSampling p v) buf)
  = layer b (drawSamples p buf).
Proof.
  intros Hb Hq. unfold drawSamples, samplingPoints. cbn [withShowSampling
    showSampling showQuantization zoom width sampleRateCtx].
  rewrite Hq, !orb_true_r.
  rewrite (sampleWalk_ext (withShowSampling p v) p) by reflexivity.
  rewrite !layer_flat_map. apply flat_map_pointwise. intros pt.
  apply drawSample_layer_sampling, Hb.
Qed.

(** The sampling loop issues calls of the three sample layers only. *)
Lemma drawSample_layer_outside (q : Props) (b : Block) (sw step : Q)
    (pt : SamplePoint) :
  b <> Sampling -> b <> Hold -> b <> Error ->
  layer b (drawSample q sw step pt) = [].
Proof.
  intros H1 H2 H3. unfold drawSample. rewrite !layer_app.
  destruct (showSampling q), (showQuantization q), (showError q), b;
    try reflexivity; congruence.
Qed.

Lemma drawSamples_layer_outside (q : Props) (b : Block) (buf : AudioBuffer) :
  b <> Sampling -> b <> Hold -> b <> Error ->
  layer b (drawSamples q buf) = [].
Proof.
  intros H1 H2 H3. unfold drawSamples.
  destruct (showSampling q || showQuantization q); [| reflexivity].
  rewrite layer_flat_map.
  induction (samplingPoints q buf) as [| pt l IH]; simpl; [reflexivity |].
  rewrite IH, (drawSample_layer_outside q b _ _ pt H1 H2 H3). reflexivity.
Qed.

(** Switching quantization moves the drawn amplitude of a sample, never
    its x. *)
Lemma drawSample_xcoords_quantization (b : Block) (sw step : Q)
    (pt pt' : SamplePoint) :
  b = Sampling \/ b = Error -> sameSpot pt' pt ->
  xcoords (layer b (drawSample (withShowQuantization p v) sw step pt'))
  = xcoords (layer b (drawSample p sw step pt)).
Proof.
  intros Hb (_ & _ & _ & Hx). unfold drawSample.
  cbn [withShowQuantization showSampling showQuantization showError
       width height].
  rewrite Hx. unfold xcoords, layer.
  destruct Hb as [-> | ->];
    destruct v, (showSampling p), (showQuantization p), (showError p);
    cbn [app filter map fst snd blockEqb positions position];
    reflexivity.
Qed.

Lemma drawSamples_xcoords_quantization (b : Block) (buf : AudioBuffer) :
  b = Sampling \/ b = Error -> showSampling p = true ->
  xcoords (layer b (drawSamples (withShowQuantization p v) buf))
  = xcoords (layer b (drawSamples p buf)).
Proof.
  intros Hb Hs. unfold drawSamples, samplingPoints.
  cbn [withShowQuantization showSampling showQuantization zoom width
       sampleRateCtx].
  rewrite Hs. cbn [orb]. rewrite !xcoords_flat_map.
  apply (flat_map_related sameSpot); [apply sampleWalk_spots |].
  intros a a' Ha. apply drawSample_xcoords_quantization; assumption.
Qed.

End Toggles.

Section RenderToggles.

Variable p : Props.
Variable v : bool.
Variable b : Block.

Lemma render_toggle_analog :
  b <> Analog -> layer b (render (withShowAnalog p v)) = layer b (render p).
Proof.
  intros Hb. unfold render. cbn [withShowAnalog audioBuffer width height].
  rewrite !layer_app. f_equal.
  destruct (audioBuffer p) as [buf |]; [| reflexivity].
  rewrite !layer_app, drawSamples_without_analog.
  rewrite (layer_other Analog b (drawAnalog (withShowAnalog p v) _))
    by (apply drawAnalog_issued || exact Hb).
  rewrite (layer_other Analog b (drawAnalog p _))
    by (apply drawAnalog_issued || exact Hb).
  reflexivity.
Qed.

Lemma render_toggle_error :
  b <> Error -> layer b (render (withShowError p v)) = layer b (render p).
Proof.
  intros Hb. unfold render. cbn [withShowError audioBuffer width height].
  rewrite !layer_app. f_equal.
  destruct (audioBuffer p) as [buf |]; [| reflexivity].
  rewrite !layer_app, (drawSamples_layer_error p v b buf Hb). reflexivity.
Qed.

Lemma render_toggle_sampling :
  b <> Sampling -> showQuantization p = true ->
  layer b (render (withShowSampling p v)) = layer b (render p).
Proof.
  intros Hb Hq. unfold render. cbn [withShowSampling audioBuffer width height].
  rewrite !layer_app. f_equal.
  destruct (audioBuffer p) as [buf |]; [| reflexivity].
  rewrite !layer_app, (drawSamples_layer_sampling p v b buf Hb Hq).
  reflexivity.
Qed.

Lemma render_toggle_quantization_outside :
  b <> Grid -> b <> Hold -> b <> Sampling -> b <> Error ->
  layer b (render (withShowQuantization p v)) = layer b (render p).
Proof.
  intros Hg Hh Hs He. unfold render.
  cbn [withShowQuantization audioBuffer width height].
  rewrite !layer_app. f_equal.
  destruct (audioBuffer p) as [buf |]; [| reflexivity].
  rewrite !layer_app.
  rewrite !(drawSamples_layer_outside _ b buf Hs Hh He).
  rewrite (layer_other Grid b (drawGrid (withShowQuantization p v)))
    by (apply drawGrid_issued || exact Hg).
  rewrite (layer_other Grid b (drawGrid p))
    by (apply drawGrid_issued || exact Hg).
  reflexivity.
Qed.

Lemma render_toggle_quantization_xcoords :
  b = Sampling \/ b = Error -> showSampling p = true ->
  xcoords (layer b (render (withShowQuantization p v)))
  = xcoords (layer b (render p)).
Proof.
  intros Hb Hs.
  assert (Hg : b <> Grid) by (destruct Hb; subst; discriminate).
  assert (Ha : b <> Analog) by (destruct Hb; subst; discriminate).
  unfold render. cbn [withShowQuantization audioBuffer width height].
  rewrite !layer_app. unfold xcoords at 1 2.
  rewrite !positions_app, !map_app. f_equal.
  destruct (audioBuffer p) as [buf |]; [| reflexivity].
  rewrite !layer_app, !positions_app, !map_app.
  rewrite (layer_other Grid b (drawGrid (withShowQuantization p v)))
    by (apply drawGrid_issued || exact Hg).
  rewrite (layer_other Grid b (drawGrid p))
    by (apply drawGrid_issued || exact Hg).
  f_equal. f_equal. f_equal.
  apply (drawSamples_xcoords_quantization p v b buf Hb Hs).
Qed.

End RenderToggles.

(** C2, amended.  Switching [showAnalog] or [showError] never changes the
    calls, hence the positions, of any other layer; switching
    [showSampling] does not change them while [showQuantization] is on;
    switching [showQuantization] changes no layer other than the grid,
    the staircase, the sample sticks and the error segments, and while
    [showSampling] is on it leaves every x coordinate of the sample sticks
    and of the error segments where it was (their y follows the
    quantized or the original amplitude). *)
Theorem layer_toggle_independence (p : Props) (v : bool) (b : Block) :
  (b <> Analog -> layer b (render (withShowAnalog p v)) = layer b (render p))
  /\ (b <> Error -> layer b (render (withShowError p v)) = layer b (render p))
  /\ (b <> Sampling -> showQuantization p = true ->
      layer b (render (withShowSampling p v)) = layer b (render p))
  /\ (b <> Grid -> b <> Hold -> b <> Sampling -> b <> Error ->
      layer b (render (withShowQuantization p v)) = layer b (render p))
  /\ (b = Sampling \/ b = Error -> showSampling p = true ->
      xcoords (layer b (render (withShowQuantization p v)))
      = xcoords (layer b (render p))).
Proof.
  split; [apply render_toggle_analog |].
  split; [apply render_toggle_error |].
  split; [apply render_toggle_sampling |].
  split; [apply render_toggle_quantization_outside |].
  apply render_toggle_quantization_xcoords.
Qed.

Lemma layer_toggle_independence_witness :
  let p := appProps rampBuffer 4410 3 1 in
  layer Hold (render (withShowAnalog p false)) = layer Hold (render p)
  /\ layer Hold (render (withShowError p true)) = layer Hold (render p)
  /\ layer Hold (render (withShowSampling p false)) = layer Hold (render p)
  /\ layer Analog (render (withShowQuantization p false))
     = layer Analog (render p)
  /\ xcoords (layer Sampling (render (withShowQuantization p false)))
     = xcoords (layer Sampling (render p)).
Proof.
  cbv zeta.
  pose proof (layer_toggle_independence
                (appProps rampBuffer 4410 3 1) false Hold) as (Ha & _ & Hs & _).
  pose proof (layer_toggle_independence
                (appProps rampBuffer 4410 3 1) true Hold) as (_ & He & _).
  pose proof (layer_toggle_independence
                (appProps rampBuffer 4410 3 1) false Analog)
    as (_ & _ & _ & Hq & _).
  pose proof (layer_toggle_independence
                (appProps rampBuffer 4410 3 1) false Sampling)
    as (_ & _ & _ & _ & Hx).
  split; [apply Ha; discriminate |].
  split; [apply He; discriminate |].
  split; [apply Hs; [discriminate | reflexivity] |].
  split; [apply Hq; discriminate |].
  apply Hx; [left; reflexivity | reflexivity].
Defined.

(** C2 as stated fails: on the ramp buffer at 1 bit, switching
    [showQuantization] off moves the tip of the second sample stick (the
    sample 0 at x = 400) from the top of the canvas (y = 0, the level 1)
    to the centre line (y = 200, the original amplitude); and with quantization and sampling both off the
    error layer is not drawn at all, although [showError] is on. *)
Lemma toggles_move_other_layers :
  let p := appProps rampBuffer 4410 1 1 in
  (exists a a',
      nth_error (positions (layer Sampling (render p))) 4 = Some a
      /\ nth_error
           (positions (layer Sampling (render (withShowQuantization p false))))
           4 = Some a'
      /\ fst a == 400 /\ fst a' == 400
      /\ snd a == 0 /\ snd a' == 200
      /\ ~ snd a == snd a')
  /\ (let q := withShowError (withShowQuantization p false) true in
      layer Error (render q) <> []
      /\ layer Error (render (withShowSampling q false)) = []).
Proof.
  cbv zeta. split.
  - destruct (nth_error
                (positions (layer Sampling (render (appProps rampBuffer 4410 1 1))))
                4) as [a |] eqn:E; [| vm_compute in E; discriminate E].
    destruct (nth_error
                (positions (layer Sampling
                   (render (withShowQuantization
                              (appProps rampBuffer 4410 1 1) false)))) 4)
      as [a' |] eqn:E'; [| vm_compute in E'; discriminate E'].
    exists a, a'. vm_compute in E. vm_compute in E'.
    injection E as <-. injection E' as <-.
    split; [reflexivity |]. split; [reflexivity |].
    repeat split; try reflexivity. intros H. vm_compute in H. discriminate H.
  - split.
    + intros H. vm_compute in H. discriminate H.
    + vm_compute. reflexivity.
Qed.

(** ** The walks run to completion *)

Section Completion.

Lemma getIndex_in_range (data : list Q) (idx : Z) :
  (0 <= idx < dataLength data)%Z -> getIndex data idx <> None.
Proof.
  intros [H0 H1]. unfold getIndex, dataLength in *.
  destruct (idx <? 0)%Z eqn:E; [apply Z.ltb_lt in E; lia |].
  apply nth_error_Some. lia.
Qed.

(** The continuous curve: with a stride of at least 1, [windowSize]
    iterations are all the loop can make. *)
Lemma analogWalk_fuel (data : list Q) (h : Q) (wsize step : Z) (sw : Q) :
  (1 <= step)%Z ->
  forall (fuel extra : nat) (i : Z) (x : Q),
    (wsize - i <= Z.of_nat fuel)%Z ->
    analogWalk data h wsize step sw (fuel + extra) i x
    = analogWalk data h wsize step sw fuel i x.
Proof.
  intros Hstep. induction fuel as [| fuel IH]; intros extra i x Hi.
  - destruct extra as [| extra]; [reflexivity |]. simpl.
    destruct (i <? wsize)%Z eqn:E; [apply Z.ltb_lt in E; lia | reflexivity].
  - simpl. destruct (i <? wsize)%Z; [| reflexivity].
    destruct (_ >=? _)%Z; [reflexivity |].
    destruct (getIndex data _); [| reflexivity].
    f_equal. apply IH. lia.
Qed.

Lemma drawAnalog_walk_fuel (data : list Q) (h zoom w : Q) (extra : nat) :
  let wsize := windowSize (dataLength data) zoom in
  analogWalk data h wsize (drawStep wsize) (w * 1 / inject_Z wsize)
    (Z.to_nat wsize + extra) 0 0
  = analogWalk data h wsize (drawStep wsize) (w * 1 / inject_Z wsize)
      (Z.to_nat wsize) 0 0.
Proof.
  intros wsize. apply analogWalk_fuel; [apply drawStep_ge_1 | lia].
Qed.

Lemma position_after_succ (step : Q) (k : nat) (i : Q) :
  position_after step (S k) i = position_after step k (i + step).
Proof. reflexivity. Qed.

(** As long as the running position stays inside the window and the
    buffer, the walk records a point at every iteration. *)
Lemma sampleWalk_visits (p : Props) (data : list Q) (wsize : Z)
    (sw step : Q) (fuel : nat) :
  forall (k : nat) (i : Q),
    (k < fuel)%nat ->
    (forall j, (j <= k)%nat -> position_after step j i < inject_Z wsize) ->
    (forall j, (j <= k)%nat ->
       samplePoint p data sw (position_after step j i) <> None) ->
    nth_error (sampleWalk p data wsize sw step fuel i) k
    = samplePoint p data sw (position_after step k i).
Proof.
  induction fuel as [| fuel IH]; intros k i Hk Hin Hpt; [lia |].
  simpl.
  assert (E : Qltb i (inject_Z wsize) = true)
    by (apply Qltb_lt, (Hin 0%nat); lia).
  rewrite E.
  destruct (samplePoint p data sw i) as [pt |] eqn:Ep;
    [| exfalso; apply (Hpt 0%nat); [lia | exact Ep]].
  destruct k as [| k]; [simpl; symmetry; exact Ep |].
  simpl nth_error. rewrite position_after_succ. apply IH.
  - lia.
  - intros j Hj. rewrite <- position_after_succ. apply Hin. lia.
  - intros j Hj. rewrite <- position_after_succ. apply Hpt. lia.
Qed.

(** With a whole stride, a row of the table whose sample lies inside
    the window is a point of the chart. *)
Lemma chart_point_of_table_row (p : Props) (buf : AudioBuffer) (k : nat)
    (row : PreviewRow) :
  inject_Z (Js.floor (skip (sampleRate buf) (sampleRateCtx p)))
    == skip (sampleRate buf) (sampleRateCtx p) ->
  previewRow buf (sampleRateCtx p) (bitDepth p) (Z.of_nat k) = Some row ->
  (row_idx row < windowSize (dataLength (channelData buf)) (zoom p))%Z ->
  exists pt,
    nth_error (samplingPoints p buf) k = Some pt
    /\ sp_idx pt = row_idx row
    /\ sp_original pt = row_original row.
Proof.
  intros Hwhole Hrow Hwin.
  set (step := skip (sampleRate buf) (sampleRateCtx p)) in *.
  set (data := channelData buf) in *.
  set (wsize := windowSize (dataLength data) (zoom p)) in *.
  assert (Hs1 : (1 <= Js.floor step)%Z).
  { rewrite Zle_Qle, Hwhole. apply skip_ge_1. }
  unfold previewRow in Hrow. cbv zeta in Hrow.
  rewrite table_skip_floor in Hrow. fold step data in Hrow.
  destruct (Z.of_nat k * Js.floor step >=? dataLength data)%Z eqn:Elen;
    [discriminate Hrow |].
  destruct (getIndex data (Z.of_nat k * Js.floor step)) as [val |] eqn:Eget;
    [| discriminate Hrow].
  injection Hrow as <-. cbn [row_idx row_original] in *.
  assert (Hlen : (Z.of_nat k * Js.floor step < dataLength data)%Z) by lia.
  assert (Hidx : forall j, (j <= k)%nat ->
            (0 <= Z.of_nat j * Js.floor step <= Z.of_nat k * Js.floor step)%Z).
  { intros j Hj. split; [apply Z.mul_nonneg_nonneg; lia |].
    apply Z.mul_le_mono_nonneg_r; lia. }
  assert (Hnth : nth_error (samplingPoints p buf) k
                 = samplePoint p data (width p * 1 / inject_Z wsize)
                     (position_after step k 0)).
  { unfold samplingPoints. fold data wsize step. apply sampleWalk_visits.
    - assert (Z.of_nat k * 1 <= Z.of_nat k * Js.floor step)%Z
        by (apply Z.mul_le_mono_nonneg_l; lia).
      lia.
    - intros j Hj. rewrite position_after_eq, <- Hwhole, <- inject_Z_mult.
      setoid_replace (0 + inject_Z (Z.of_nat j * Js.floor step))
        with (inject_Z (Z.of_nat j * Js.floor step)) by ring.
      rewrite <- Zlt_Qlt. specialize (Hidx j Hj). lia.
    - intros j Hj. unfold samplePoint.
      rewrite (whole_stride_index step j Hwhole).
      specialize (Hidx j Hj).
      destruct (Z.of_nat j * Js.floor step >=? dataLength data)%Z eqn:E;
        [lia |].
      destruct (getIndex data (Z.of_nat j * Js.floor step)) eqn:G;
        [intros Hnone; discriminate Hnone |].
      exfalso. revert G. apply getIndex_in_range. lia. }
  rewrite Hnth. unfold samplePoint.
  rewrite (whole_stride_index step k Hwhole), Elen, Eget.
  eexists. split; [reflexivity |]. split; reflexivity.
Qed.

End Completion.

(** * Further properties of the sources *)

(** ** utils/audioUtils.ts: rounding, saturation and the printed code *)


Lemma normalize_comp (v w : Q) : v == w -> normalize v == normalize w.
Proof.
  intros H. unfold normalize, Js.max, Js.min. rewrite H. reflexivity.
Qed.

Lemma discreteCode_comp (v w : Q) (b : Z) :
  v == w -> discreteCode v b = discreteCode w b.
Proof.
  intros H. rewrite !discreteCode_normalize. apply round_comp.
  rewrite (normalize_comp v w H). reflexivity.
Qed.

Lemma discreteCode_low (v : Q) (b : Z) : v <= -1 -> discreteCode v b = 0%Z.
Proof.
  intros H. rewrite discreteCode_normalize.
  transitivity (Js.round (inject_Z 0)); [| apply round_inject].
  apply round_comp. unfold normalize. rewrite clamp_below by qlin.
  change (inject_Z 0) with 0. ring.
Qed.

Lemma discreteCode_high (v : Q) (b : Z) :
  (0 <= b)%Z -> 1 <= v -> discreteCode v b = (2 ^ b - 1)%Z.
Proof.
  intros Hb H. rewrite discreteCode_normalize.
  transitivity (Js.round (inject_Z (2 ^ b - 1))); [| apply round_inject].
  apply round_comp. unfold normalize. rewrite clamp_above by qlin.
  rewrite (maxVal_inject b Hb). ring.
Qed.



(** X2.  Below the ceiling the quantization error vanishes exactly on the
    levels: [getQuantizationError a (quantizeValue a b)] is 0 if and only
    if [a] is one of the [2^b] levels. *)
Theorem quantization_error_zero_iff_level (a : Q) (b : Z) :
  (1 <= b <= 31)%Z ->
  (getQuantizationError a (quantizeValue a b) == 0
   <-> exists d, (0 <= d < 2 ^ b)%Z /\ a == level b d).
Proof.
  intros [Hb1 Hb2]. rewrite quantizeValue_code by lia.
  unfold getQuantizationError, Js.abs. split.
  - intros H. exists (discreteCode a b).
    pose proof (discreteCode_range b Hb1 a). split; [lia |].
    assert (Hle : Qabs (a - level b (discreteCode a b)) <= 0)
      by (rewrite H; apply Qle_refl).
    apply Qabs_Qle_condition in Hle. lra.
  - intros (d & Hd & E).
    rewrite (discreteCode_comp a (level b d) b E).
    rewrite discreteCode_level by (exact Hb1 || lia).
    setoid_replace (a - level b d) with 0 by (rewrite E; ring).
    reflexivity.
Qed.

Lemma quantization_error_zero_iff_level_witness :
  getQuantizationError (1 # 3) (quantizeValue (1 # 3) 2) == 0
  <-> exists d, (0 <= d < 2 ^ 2)%Z /\ 1 # 3 == level 2 d.
Proof. apply (quantization_error_zero_iff_level (1 # 3) 2). lia. Defined.

(** X3.  Beyond full scale the quantizer saturates and the error is the
    overshoot, so it is not bounded by the step: for [|a| >= 1] the
    output is [a] clamped to [-1,1], that is 1 or -1 by the sign of [a],
    and the error is [|a| - 1]. *)
Theorem quantize_saturates (a : Q) (b : Z) :
  (1 <= b <= 31)%Z -> 1 <= Qabs a ->
  quantizeValue a b == clampAmplitude a
  /\ (quantizeValue a b == 1 \/ quantizeValue a b == -1)
  /\ getQuantizationError a (quantizeValue a b) == Qabs a - 1.
Proof.
  intros [Hb1 Hb2] Ha. rewrite quantizeValue_code by lia.
  unfold getQuantizationError, Js.abs, clampAmplitude, Js.max, Js.min.
  destruct (Qlt_le_dec a 0) as [Hneg | Hpos].
  - assert (Ea : Qabs a == - a) by (apply Qabs_neg; lra).
    rewrite Ea in *. assert (Hlow : a <= -1) by lra.
    rewrite discreteCode_low by exact Hlow.
    rewrite (level_bottom b Hb1). split; [| split].
    + symmetry. apply Q.max_l. rewrite Q.min_r; lra.
    + right. reflexivity.
    + transitivity (- (a - -1)); [apply Qabs_neg; lra | ring].
  - assert (Ea : Qabs a == a) by (apply Qabs_pos; lra).
    rewrite Ea in *.
    rewrite discreteCode_high by (lia || exact Ha).
    rewrite (level_top b Hb1). split; [| split].
    + symmetry. rewrite (Q.min_l 1 a) by lra. apply Q.max_r. lra.
    + left. reflexivity.
    + apply Qabs_pos. lra.
Qed.

Lemma quantize_saturates_witness :
  quantizeValue (-3) 4 == clampAmplitude (-3)
  /\ (quantizeValue (-3) 4 == 1 \/ quantizeValue (-3) 4 == -1)
  /\ getQuantizationError (-3) (quantizeValue (-3) 4) == Qabs (-3) - 1.
Proof.
  apply (quantize_saturates (-3) 4).
  - lia.
  - unfold Qle; simpl; lia.
Defined.

Lemma replicate_snoc (k : nat) (c : ascii) (rest : string) :
  (Js.replicate k c ++ String c rest)%string
  = (Js.replicate (S k) c ++ rest)%string.
Proof.
  induction k as [| k IH]; simpl; [reflexivity |]. f_equal. exact IH.
Qed.

Lemma append_empty (s : string) : (s ++ EmptyString)%string = s.
Proof. induction s as [| c s IH]; simpl; [reflexivity | now rewrite IH]. Qed.

Lemma isBinary_app (s t : string) :
  isBinary (s ++ t) = isBinary s && isBinary t.
Proof.
  induction s as [| c s IH]; simpl; [reflexivity |].
  rewrite IH, andb_assoc. reflexivity.
Qed.

Lemma isBinary_zeros (k : nat) : isBinary (Js.replicate k "0") = true.
Proof. induction k as [| k IH]; simpl; [reflexivity | exact IH]. Qed.

Lemma isBinary_binDigits (p : positive) :
  forall rest, isBinary (Js.binDigits p rest) = isBinary rest.
Proof.
  induction p as [q IH | q IH |]; intros rest; simpl;
    try rewrite IH; reflexivity.
Qed.

(** The digits of [2^(k+1) - 1] are [k+1] ones. *)
Lemma binDigits_ones (k : nat) :
  forall (p : positive) (rest : string),
    Zpos p = (2 ^ Z.of_nat (S k) - 1)%Z ->
    Js.binDigits p rest = (Js.replicate (S k) "1" ++ rest)%string.
Proof.
  induction k as [| k IH]; intros p rest Hp.
  - change (2 ^ Z.of_nat 1)%Z with 2%Z in Hp.
    assert (p = 1%positive) by lia. subst p. reflexivity.
  - rewrite Nat2Z.inj_succ, Z.pow_succ_r in Hp by lia.
    destruct p as [q | q |].
    + change (Js.binDigits q~1 rest) with (Js.binDigits q (String "1" rest)).
      rewrite (IH q) by lia. apply replicate_snoc.
    + exfalso. lia.
    + exfalso.
      assert (2 <= 2 ^ Z.of_nat (S k))%Z.
      { change 2%Z with (2 ^ 1)%Z at 1. apply Z.pow_le_mono_r; lia. }
      lia.
Qed.

(** X4.  Below the ceiling the printed code identifies the level: two
    amplitudes get the same binary string exactly when they are quantized
    to the same value. *)
Theorem formatBinary_identifies_level (a a' : Q) (b : Z) :
  (1 <= b <= 31)%Z ->
  (formatBinary a b = formatBinary a' b
   <-> quantizeValue a b == quantizeValue a' b).
Proof.
  intros [Hb1 Hb2]. rewrite !quantizeValue_code by lia.
  pose proof (discreteCode_range b Hb1 a) as Hd.
  pose proof (discreteCode_range b Hb1 a') as Hd'.
  split.
  - intros H. apply (f_equal parseBinary) in H. unfold formatBinary in H.
    rewrite !parseBinary_padStart in H by lia. rewrite H. reflexivity.
  - intros H. apply (level_inj b Hb1) in H. unfold formatBinary.
    rewrite H. reflexivity.
Qed.

Lemma formatBinary_identifies_level_witness :
  formatBinary (3 # 10) 3 = formatBinary (2 # 10) 3
  <-> quantizeValue (3 # 10) 3 == quantizeValue (2 # 10) 3.
Proof. apply (formatBinary_identifies_level (3 # 10) (2 # 10) 3). lia. Defined.

(** X5.  For every bit depth from 1 to 32, the ceiling included (unlike
    [quantizeValue], [formatBinary] has no special case there),
    [formatBinary] prints exactly [bitDepth] characters, each of them 0 or
    1; every amplitude at or below -1 prints as all zeros and every
    amplitude at or above 1 as all ones. *)
Theorem formatBinary_digits (a : Q) (b : Z) :
  (1 <= b <= 32)%Z ->
  Z.of_nat (String.length (formatBinary a b)) = b
  /\ isBinary (formatBinary a b) = true
  /\ (forall lo, lo <= -1 ->
        formatBinary lo b = Js.replicate (Z.to_nat b) "0")
  /\ (forall hi, 1 <= hi ->
        formatBinary hi b = Js.replicate (Z.to_nat b) "1").
Proof.
  intros [Hb _]. pose proof (discreteCode_range b Hb a) as Hd.
  split; [| split; [| split]].
  - unfold formatBinary. apply length_padStart_code; lia.
  - unfold formatBinary, Js.padStart.
    rewrite isBinary_app, isBinary_zeros.
    destruct (discreteCode a b) as [| p | p]; [reflexivity | | lia].
    simpl Js.toString2. rewrite isBinary_binDigits. reflexivity.
  - intros lo Hlo. unfold formatBinary, Js.padStart.
    rewrite (discreteCode_low lo b Hlo). simpl Js.toString2. simpl String.length.
    destruct (Z.to_nat b) as [| k] eqn:E; [lia |].
    replace (S k - 1)%nat with k by lia.
    rewrite replicate_snoc. apply append_empty.
  - intros hi Hhi. unfold formatBinary, Js.padStart.
    rewrite (discreteCode_high hi b) by (lia || exact Hhi).
    destruct (Z.to_nat b) as [| k] eqn:E; [lia |].
    assert (Eb : b = Z.of_nat (S k)) by lia.
    destruct (2 ^ b - 1)%Z as [| p | p] eqn:Ep.
    + exfalso.
      assert (2 <= 2 ^ b)%Z.
      { change 2%Z with (2 ^ 1)%Z at 1. apply Z.pow_le_mono_r; lia. }
      lia.
    + simpl Js.toString2.
      rewrite (binDigits_ones k p EmptyString) by (rewrite <- Eb; lia).
      rewrite append_empty, length_replicate, Nat.sub_diag. reflexivity.
    + exfalso. assert (0 < 2 ^ b)%Z by (apply Z.pow_pos_nonneg; lia). lia.
Qed.

Lemma formatBinary_digits_witness :
  Z.of_nat (String.length (formatBinary (3 # 10) 32)) = 32%Z
  /\ isBinary (formatBinary (3 # 10) 32) = true
  /\ (forall lo, lo <= -1 ->
        formatBinary lo 32 = Js.replicate (Z.to_nat 32) "0")
  /\ (forall hi, 1 <= hi ->
        formatBinary hi 32 = Js.replicate (Z.to_nat 32) "1").
Proof. apply (formatBinary_digits (3 # 10) 32). lia. Defined.

(** ** App.tsx: the rows of the preview table *)

Lemma getIndex_some_iff (data : list Q) (idx : Z) :
  getIndex data idx <> None <-> (0 <= idx < dataLength data)%Z.
Proof.
  unfold getIndex, dataLength. split.
  - intros H. destruct (idx <? 0)%Z eqn:E; [congruence |].
    apply nth_error_Some in H. lia.
  - intros [H0 H1]. destruct (idx <? 0)%Z eqn:E; [lia |].
    apply nth_error_Some. lia.
Qed.

Lemma tableSkip_ge_1 (realRate ctxRate : Q) : (1 <= tableSkip realRate ctxRate)%Z.
Proof. unfold tableSkip. apply Z.le_max_l. Qed.

Lemma previewRow_some_iff (buf : AudioBuffer) (ctxRate : Q) (b : Z) (i : Z) :
  (0 <= i)%Z ->
  (previewRow buf ctxRate b i <> None
   <-> (i * tableSkip (sampleRate buf) ctxRate
        < dataLength (channelData buf))%Z).
Proof.
  intros Hi. unfold previewRow. cbv zeta. fold (tableSkip (sampleRate buf) ctxRate).
  pose proof (tableSkip_ge_1 (sampleRate buf) ctxRate) as Hs.
  set (idx := (i * tableSkip (sampleRate buf) ctxRate)%Z).
  assert (H0 : (0 <= idx)%Z) by (apply Z.mul_nonneg_nonneg; lia).
  destruct (idx >=? dataLength (channelData buf))%Z eqn:E.
  - split; [congruence | lia].
  - destruct (getIndex (channelData buf) idx) eqn:G.
    + split; [lia | congruence].
    + exfalso. revert G. apply getIndex_some_iff. lia.
Qed.

(** The code of a level, recomputed from the level as the table does. *)
Lemma round_of_level (b d : Z) :
  (1 <= b)%Z -> Js.round ((level b d + 1) / 2 * (Js.pow2 b - 1)) = d.
Proof.
  intros Hb. pose proof (maxVal_pos b Hb) as Hm.
  transitivity (Js.round (inject_Z d)); [| apply round_inject].
  apply round_comp. unfold level, rescaleCode. field. lra.
Qed.

(** X6.  Below the ceiling the Binary cell of a row, which the table
    recomputes from the quantized value, is the string [formatBinary]
    prints for the original amplitude of the row; the Quantized cell is
    what that string decodes to. *)
Theorem preview_row_binary (buf : AudioBuffer) (ctxRate : Q) (b i : Z)
    (row : PreviewRow) :
  (1 <= b <= 31)%Z ->
  previewRow buf ctxRate b i = Some row ->
  row_binary row = formatBinary (row_original row) b
  /\ decodeBinary (row_binary row) b = row_quantized row.
Proof.
  intros [Hb1 Hb2] Hrow. unfold previewRow in Hrow. cbv zeta in Hrow.
  destruct (_ >=? _)%Z in Hrow; [discriminate Hrow |].
  destruct (getIndex _ _) as [val |] in Hrow; [| discriminate Hrow].
  injection Hrow as <-. cbn [row_binary row_original row_quantized].
  rewrite quantizeValue_code by lia. rewrite round_of_level by exact Hb1.
  split; [reflexivity |].
  unfold decodeBinary. rewrite parseBinary_padStart; [reflexivity |].
  apply discreteCode_range, Hb1.
Qed.

Lemma preview_row_binary_witness :
  exists row,
    previewRow rampBuffer 5000 4 2 = Some row
    /\ row_binary row = formatBinary (row_original row) 4
    /\ decodeBinary (row_binary row) 4 = row_quantized row.
Proof.
  destruct (previewRow rampBuffer 5000 4 2) as [row |] eqn:E;
    [| vm_compute in E; discriminate E].
  exists row. split; [reflexivity |].
  apply (preview_row_binary rampBuffer 5000 4 2 row); [lia | exact E].
Defined.

(** X7.  For positive rates the table always has 20 entries; entry [i] is
    a row exactly when [i * skip] is inside the buffer, with
    [skip = max(1, floor(realRate / sampleRateCtx))], so a missing row is
    followed by missing rows only; a row shows its own number, reads the
    sample [i * skip] and its time is that index over the native rate. *)
Theorem preview_rows_prefix (buf : AudioBuffer) (ctxRate : Q) (b : Z) :
  0 < sampleRate buf -> 0 < ctxRate ->
  let step := tableSkip (sampleRate buf) ctxRate in
  List.length (previewTable buf ctxRate b) = 20%nat
  /\ (forall i : nat,
        previewRow buf ctxRate b (Z.of_nat i) <> None
        <-> (Z.of_nat i * step < dataLength (channelData buf))%Z)
  /\ (forall i j : nat,
        (i <= j)%nat ->
        previewRow buf ctxRate b (Z.of_nat i) = None ->
        previewRow buf ctxRate b (Z.of_nat j) = None)
  /\ (forall (i : nat) (row : PreviewRow),
        previewRow buf ctxRate b (Z.of_nat i) = Some row ->
        row_i row = Z.of_nat i
        /\ row_idx row = (Z.of_nat i * step)%Z
        /\ getIndex (channelData buf) (row_idx row) = Some (row_original row)
        /\ row_time row = inject_Z (row_idx row) / sampleRate buf).
Proof.
  intros _ _ step.
  pose proof (tableSkip_ge_1 (sampleRate buf) ctxRate) as Hs. fold step in Hs.
  split; [| split; [| split]].
  - unfold previewTable. rewrite length_map, length_seq. reflexivity.
  - intros i. apply previewRow_some_iff. lia.
  - intros i j Hij Hnone.
    destruct (previewRow buf ctxRate b (Z.of_nat j)) eqn:Ej; [| reflexivity].
    exfalso.
    assert (Hj : previewRow buf ctxRate b (Z.of_nat j) <> None) by congruence.
    apply previewRow_some_iff in Hj; [| lia]. fold step in Hj.
    assert (Hi : previewRow buf ctxRate b (Z.of_nat i) <> None).
    { apply previewRow_some_iff; [lia |]. fold step.
      assert (Z.of_nat i * step <= Z.of_nat j * step)%Z
        by (apply Z.mul_le_mono_nonneg_r; lia).
      lia. }
    exact (Hi Hnone).
  - intros i row Hrow. unfold previewRow in Hrow. cbv zeta in Hrow.
    fold (tableSkip (sampleRate buf) ctxRate) in Hrow. fold step in Hrow.
    destruct (_ >=? _)%Z in Hrow; [discriminate Hrow |].
    destruct (getIndex (channelData buf) (Z.of_nat i * step)) as [val |] eqn:G;
      [| discriminate Hrow].
    injection Hrow as <-. cbn. repeat split; try reflexivity. exact G.
Qed.

Lemma preview_rows_prefix_witness :
  let step := tableSkip (sampleRate rampBuffer) 5000 in
  List.length (previewTable rampBuffer 5000 4) = 20%nat
  /\ (forall i : nat,
        previewRow rampBuffer 5000 4 (Z.of_nat i) <> None
        <-> (Z.of_nat i * step < dataLength (channelData rampBuffer))%Z)
  /\ (forall i j : nat,
        (i <= j)%nat ->
        previewRow rampBuffer 5000 4 (Z.of_nat i) = None ->
        previewRow rampBuffer 5000 4 (Z.of_nat j) = None)
  /\ (forall (i : nat) (row : PreviewRow),
        previewRow rampBuffer 5000 4 (Z.of_nat i) = Some row ->
        row_i row = Z.of_nat i
        /\ row_idx row = (Z.of_nat i * step)%Z
        /\ getIndex (channelData rampBuffer) (row_idx row)
           = Some (row_original row)
        /\ row_time row = inject_Z (row_idx row) / sampleRate rampBuffer).
Proof.
  apply (preview_rows_prefix rampBuffer 5000 4); reflexivity.
Defined.

(** ** components/WaveformCanvas.tsx: the window and the sampling walk *)

Lemma windowSize_bounds (len : Z) (zoom : Q) :
  (0 <= len)%Z -> 1 <= zoom -> (0 <= windowSize len zoom <= len)%Z.
Proof.
  intros Hlen Hz. unfold windowSize, Js.floor.
  assert (Hz0 : 0 < zoom) by lra.
  assert (Hl : 0 <= inject_Z len)
    by (change 0 with (inject_Z 0); rewrite <- Zle_Qle; exact Hlen).
  split.
  - rewrite <- (Qfloor_Z 0). apply Qfloor_resp_le.
    change (inject_Z 0) with 0. apply Qle_shift_div_l; [exact Hz0 | lra].
  - rewrite <- (Qfloor_Z len) at 2. apply Qfloor_resp_le.
    apply Qle_shift_div_r; [exact Hz0 |].
    rewrite <- (Qmult_1_r (inject_Z len)) at 1.
    apply Qmult_le_compat_nonneg; split; lra.
Qed.

(** X8.  For a zoom of at least 1 the window starts at sample 0 and never
    exceeds the buffer: [0 <= sampleCount] and [startIndex + sampleCount
    <= sourceLength]; at zoom 1 it is the whole buffer. *)
Theorem window_within_buffer
    (sourceLength : Z) (nativeSampleRate targetSampleRate zoom : Q) :
  (0 <= sourceLength)%Z -> 1 <= zoom ->
  let w := plan sourceLength nativeSampleRate targetSampleRate zoom in
  startIndex w = 0%Z
  /\ (0 <= sampleCount w)%Z
  /\ (startIndex w + sampleCount w <= sourceLength)%Z
  /\ (zoom == 1 -> sampleCount w = sourceLength).
Proof.
  intros Hlen Hz w. subst w. unfold plan. cbn [startIndex sampleCount].
  pose proof (windowSize_bounds sourceLength zoom Hlen Hz) as [H0 H1].
  split; [reflexivity |]. split; [exact H0 |].
  split; [change (Js.floor timeOffset) with 0%Z; lia |].
  intros E. unfold windowSize, Js.floor. rewrite <- (Qfloor_Z sourceLength) at 2.
  apply Qfloor_comp. rewrite E. field.
Qed.

Lemma window_within_buffer_witness :
  let w := plan 44100 44100 5000 50 in
  startIndex w = 0%Z
  /\ (0 <= sampleCount w)%Z
  /\ (startIndex w + sampleCount w <= 44100)%Z
  /\ (50 == 1 -> sampleCount w = 44100%Z).
Proof.
  apply (window_within_buffer 44100 44100 5000 50).
  - lia.
  - unfold Qle; simpl; lia.
Defined.

Lemma samplePoint_fields (p : Props) (data : list Q) (sw i : Q)
    (pt : SamplePoint) :
  samplePoint p data sw i = Some pt ->
  sp_i pt = i
  /\ sp_idx pt = Js.floor (timeOffset + i)
  /\ (sp_idx pt < dataLength data)%Z
  /\ getIndex data (sp_idx pt) = Some (sp_original pt)
  /\ sp_final pt
     = (if showQuantization p
        then quantizeValue (sp_original pt) (bitDepth p)
        else sp_original pt)
  /\ sp_x pt = i * sw
  /\ sp_y pt = ampToY (height p) (sp_final pt).
Proof.
  unfold samplePoint. intros H.
  destruct (Js.floor (timeOffset + i) >=? dataLength data)%Z eqn:E;
    [discriminate H |].
  destruct (getIndex data (Js.floor (timeOffset + i))) as [v |] eqn:G;
    [| discriminate H].
  assert (Hlt : (Js.floor (timeOffset + i) < dataLength data)%Z) by lia.
  injection H as <-.
  exact (conj eq_refl (conj eq_refl (conj Hlt (conj G
           (conj eq_refl (conj eq_refl eq_refl)))))).
Qed.

Section WalkShape.

Variable p : Props.
Variable buf : AudioBuffer.
Hypothesis Hzoom : 1 <= zoom p.

Let data := channelData buf.
Let wsize := windowSize (dataLength data) (zoom p).
Let step := skip (sampleRate buf) (sampleRateCtx p).
Let sw := width p * 1 / inject_Z wsize.






Lemma samplingPoints_nth_inv (k : nat) (pt : SamplePoint) :
  nth_error (samplingPoints p buf) k = Some pt ->
  samplePoint p data sw (position_after step k 0) = Some pt
  /\ inject_Z (Z.of_nat k) * step < inject_Z wsize.
Proof.
  intros H. unfold samplingPoints in H. fold data wsize step sw in H.
  apply sampleWalk_nth in H as [Hpt Hlt]. split; [exact Hpt |].
  rewrite position_after_eq in Hlt. lra.
Qed.

End WalkShape.



(** The walk of the ramp buffer at 5000 Hz has the three points 0, 8.82
    and 17.64, reading the samples 0, 8 and 17. *)
Example ramp_walk_indices :
  map sp_idx (samplingPoints (appProps rampBuffer 5000 4 1) rampBuffer)
  = [0; 8; 17]%Z.
Proof. vm_compute. reflexivity. Qed.

(** ** components/WaveformCanvas.tsx: where the samples are drawn *)





Lemma drawSample_error_positions (p : Props) (sw step : Q) (pt : SamplePoint) :
  showError p = true ->
  positions (layer Error (drawSample p sw step pt))
  = [(sp_x pt, ampToY (height p) (sp_original pt)); (sp_x pt, sp_y pt)].
Proof.
  intros He. unfold drawSample, layer. rewrite He.
  destruct (showSampling p), (showQuantization p);
    cbn [app filter map fst snd blockEqb positions position]; reflexivity.
Qed.






Lemma ampToY_range (h a : Q) :
  0 <= h -> -1 <= a <= 1 -> 0 <= ampToY h a <= h.
Proof.
  intros Hh [Hlo Hhi]. unfold ampToY.
  assert (H1 : a * h <= 1 * h) by (apply Qmult_le_compat_r; assumption).
  assert (H2 : -1 * h <= a * h) by (apply Qmult_le_compat_r; assumption).
  split; qlin.
Qed.

Lemma ampToY_difference (h a c : Q) :
  ampToY h a - ampToY h c == h / 2 * (c - a).
Proof. unfold ampToY. field. Qed.

Lemma quantizeValue_range (a : Q) (b : Z) :
  (1 <= b <= 31)%Z -> -1 <= quantizeValue a b <= 1.
Proof.
  intros [Hb1 Hb2]. rewrite quantizeValue_code by lia.
  apply level_range; [exact Hb1 | apply discreteCode_range, Hb1].
Qed.

(** X12.  For a canvas of non-negative height the tip of a sample lies
    inside the canvas, [0 <= y <= height], whenever quantization is
    displayed with a bit depth from 1 to 31, whatever the amplitude in the
    buffer, and whenever the amplitude itself is within [-1,1]. *)
Theorem sample_tip_inside_canvas
    (p : Props) (buf : AudioBuffer) (k : nat) (pt : SamplePoint) :
  0 <= height p -> (1 <= bitDepth p)%Z ->
  (showQuantization p = true /\ (bitDepth p <= 31)%Z)
  \/ -1 <= sp_original pt <= 1 ->
  nth_error (samplingPoints p buf) k = Some pt ->
  0 <= sp_y pt <= height p.
Proof.
  intros Hh Hb Hcase Hnth.
  destruct (samplingPoints_nth_inv p buf k pt Hnth) as [Hpt _].
  apply samplePoint_fields in Hpt as (_ & _ & _ & _ & Hfin & _ & Hy).
  rewrite Hy. apply ampToY_range; [exact Hh |]. rewrite Hfin.
  destruct Hcase as [[Hq Hb31] | Hin].
  - rewrite Hq. apply quantizeValue_range. lia.
  - destruct (showQuantization p); [| exact Hin].
    destruct (Z_lt_le_dec (bitDepth p) 32) as [Hlo | Hhi].
    + apply quantizeValue_range. lia.
    + rewrite quantizeValue_ceiling by exact Hhi. exact Hin.
Qed.

Lemma sample_tip_inside_canvas_witness :
  exists pt,
    nth_error (samplingPoints (appProps rampBuffer 5000 4 1) rampBuffer) 1
    = Some pt
    /\ 0 <= sp_y pt <= height (appProps rampBuffer 5000 4 1).
Proof.
  destruct (nth_error (samplingPoints (appProps rampBuffer 5000 4 1) rampBuffer) 1)
    as [pt |] eqn:E; [| vm_compute in E; discriminate E].
  exists pt. split; [reflexivity |].
  apply (sample_tip_inside_canvas (appProps rampBuffer 5000 4 1) rampBuffer 1 pt).
  - unfold Qle; simpl; lia.
  - simpl; lia.
  - left. split; [reflexivity | simpl; lia].
  - exact E.
Defined.

(** X13.  The error segment of a sample is vertical, from the height of
    the original amplitude to the tip, and its length is half the canvas
    height times the quantization error; it has length 0 when
    quantization is not displayed, and at most [height / (2 (2^bitDepth -
    1))] when it is, for a bit depth from 1 to 31 and an amplitude within
    [-1,1]. *)
Theorem error_segment_length
    (p : Props) (buf : AudioBuffer) (k : nat) (pt : SamplePoint) :
  0 <= height p -> showError p = true ->
  nth_error (samplingPoints p buf) k = Some pt ->
  let step := skip (sampleRate buf) (sampleRateCtx p) in
  let wsize := windowSize (dataLength (channelData buf)) (zoom p) in
  let sw := width p * 1 / inject_Z wsize in
  let originalY := ampToY (height p) (sp_original pt) in
  positions (layer Error (drawSample p sw step pt))
  = [(sp_x pt, originalY); (sp_x pt, sp_y pt)]
  /\ Qabs (originalY - sp_y pt)
     == height p / 2 * getQuantizationError (sp_original pt) (sp_final pt)
  /\ (showQuantization p = false -> originalY = sp_y pt)
  /\ (showQuantization p = true -> (1 <= bitDepth p <= 31)%Z ->
      -1 <= sp_original pt <= 1 ->
      Qabs (originalY - sp_y pt)
      <= height p / (2 * inject_Z (2 ^ bitDepth p - 1))).
Proof.
  intros Hh He Hnth step wsize sw originalY.
  destruct (samplingPoints_nth_inv p buf k pt Hnth) as [Hpt _].
  apply samplePoint_fields in Hpt as (_ & _ & _ & _ & Hfin & _ & Hy).
  assert (Hlen : Qabs (originalY - sp_y pt)
                 == height p / 2
                    * getQuantizationError (sp_original pt) (sp_final pt)).
  { unfold originalY. rewrite Hy, ampToY_difference, Qabs_Qmult.
    rewrite (Qabs_pos (height p / 2)) by qlin.
    unfold getQuantizationError, Js.abs.
    rewrite (Qabs_Qminus (sp_original pt) (sp_final pt)). reflexivity. }
  split; [apply drawSample_error_positions, He |].
  split; [exact Hlen |]. split.
  - intros Hq. unfold originalY. rewrite Hy, Hfin, Hq. reflexivity.
  - intros Hq [Hb1 Hb2] Hin. rewrite Hlen.
    unfold getQuantizationError, Js.abs. rewrite Hfin, Hq.
    rewrite quantizeValue_code by lia.
    pose proof (level_near (bitDepth p) Hb1 (sp_original pt) Hin) as Hnear.
    rewrite Qabs_Qminus in Hnear.
    pose proof (maxVal_pos (bitDepth p) Hb1) as Hm.
    rewrite <- (maxVal_inject (bitDepth p)) by lia.
    set (m := Js.pow2 (bitDepth p) - 1) in *.
    setoid_replace (height p / (2 * m)) with (height p / 2 * (1 / m))
      by (field; lra).
    rewrite !(Qmult_comm (height p / 2)).
    apply Qmult_le_compat_r; [exact Hnear | qlin].
Qed.

Lemma error_segment_length_witness :
  exists pt,
    let p := withShowError (appProps rampBuffer 5000 4 1) true in
    let step := skip (sampleRate rampBuffer) (sampleRateCtx p) in
    let wsize := windowSize (dataLength (channelData rampBuffer)) (zoom p) in
    let sw := width p * 1 / inject_Z wsize in
    let originalY := ampToY (height p) (sp_original pt) in
    nth_error (samplingPoints p rampBuffer) 2 = Some pt
    /\ positions (layer Error (drawSample p sw step pt))
       = [(sp_x pt, originalY); (sp_x pt, sp_y pt)]
    /\ Qabs (originalY - sp_y pt)
       == height p / 2 * getQuantizationError (sp_original pt) (sp_final pt)
    /\ (showQuantization p = false -> originalY = sp_y pt)
    /\ (showQuantization p = true -> (1 <= bitDepth p <= 31)%Z ->
        -1 <= sp_original pt <= 1 ->
        Qabs (originalY - sp_y pt)
        <= height p / (2 * inject_Z (2 ^ bitDepth p - 1))).
Proof.
  destruct (nth_error
              (samplingPoints (withShowError (appProps rampBuffer 5000 4 1) true)
                 rampBuffer) 2)
    as [pt |] eqn:E; [| vm_compute in E; discriminate E].
  exists pt. cbv zeta. split; [exact E |].
  apply (error_segment_length
           (withShowError (appProps rampBuffer 5000 4 1) true) rampBuffer 2 pt).
  - unfold Qle; simpl; lia.
  - reflexivity.
  - exact E.
Defined.

(** ** components/WaveformCanvas.tsx: the grid *)

Lemma layer_grid_render (p : Props) (buf : AudioBuffer) :
  audioBuffer p = Some buf -> layer Grid (render p) = map snd (drawGrid p).
Proof.
  intros Hbuf. unfold render. rewrite Hbuf, !layer_app.
  rewrite (layer_other Analog Grid (drawAnalog p _))
    by (apply drawAnalog_issued || discriminate).
  rewrite (drawSamples_layer_outside p Grid buf) by discriminate.
  change (layer Grid (drawZeroLine p)) with (@nil Cmd).
  change (layer Grid [(Background, ClearRect 0 0 (width p) (height p));
                      (Background, FillStyle "#1e293b");
                      (Background, FillRect 0 0 (width p) (height p))])
    with (@nil Cmd).
  rewrite !app_nil_r. simpl app.
  pose proof (drawGrid_issued p) as H.
  induction H as [| c l Hc _ IH]; [reflexivity |].
  unfold layer in *. simpl. rewrite Hc. simpl. f_equal. exact IH.
Qed.

Lemma gridLine_positions (w h levels : Q) (l : list Z) :
  positions (map snd (flat_map (gridLine w h levels) l))
  = flat_map (fun i => [(0, gridY h levels i); (w, gridY h levels i)]) l.
Proof.
  induction l as [| i l IH]; [reflexivity |].
  simpl. rewrite IH. reflexivity.
Qed.

Lemma gridCounter_pow2 (b : Z) :
  (0 <= b)%Z ->
  gridCounter (Js.pow2 b) = map Z.of_nat (seq 0 (Z.to_nat (2 ^ b + 1))).
Proof.
  intros Hb. unfold gridCounter, Js.floor.
  rewrite (Qfloor_comp _ _ (pow2_inject b Hb)), Qfloor_Z. reflexivity.
Qed.

Lemma quotient_nonneg (n d : Q) : 0 <= n -> 0 < d -> 0 <= n / d.
Proof.
  intros Hn Hd. apply Qle_shift_div_l; [exact Hd |].
  setoid_replace (0 * d) with 0 by ring. exact Hn.
Qed.

(** X14.  With a buffer loaded, the grid is drawn only when quantization
    is displayed at 5 bits or fewer; it then consists of [2^bitDepth + 1]
    horizontal lines across the canvas, from the bottom edge (line 0) to
    the top edge (line [2^bitDepth]), evenly spaced, and the tip of a
    sample quantized to code [d] lies in the band between line [d] and
    line [d + 1]. *)
Theorem grid_lines_and_bands (p : Props) (buf : AudioBuffer) :
  audioBuffer p = Some buf -> 0 <= height p ->
  let b := bitDepth p in
  let h := height p in
  let levels := Js.pow2 b in
  (showQuantization p = false \/ (5 < b)%Z -> layer Grid (render p) = [])
  /\ (showQuantization p = true -> (0 <= b <= 5)%Z ->
      positions (layer Grid (render p))
      = flat_map (fun i => [(0, gridY h levels i); (width p, gridY h levels i)])
          (map Z.of_nat (seq 0 (Z.to_nat (2 ^ b + 1))))
      /\ gridY h levels 0 == h
      /\ gridY h levels (2 ^ b) == 0
      /\ (forall i, gridY h levels i - gridY h levels (i + 1)
                    == h / inject_Z (2 ^ b)))
  /\ ((1 <= b <= 5)%Z ->
      forall d, (0 <= d <= 2 ^ b - 1)%Z ->
        gridY h levels (d + 1) <= ampToY h (level b d)
        /\ ampToY h (level b d) <= gridY h levels d).
Proof.
  intros Hbuf Hh b h levels. rewrite (layer_grid_render p buf Hbuf).
  split; [| split].
  - intros Hoff. unfold drawGrid. fold b.
    destruct Hoff as [Hq | Hb].
    + rewrite Hq. reflexivity.
    + destruct (b <=? 5)%Z eqn:E; [apply Z.leb_le in E; lia |].
      rewrite andb_false_r. reflexivity.
  - intros Hq [Hb0 Hb5].
    assert (HL : levels == inject_Z (2 ^ b)) by (apply pow2_inject, Hb0).
    assert (HLpos : 0 < inject_Z (2 ^ b)).
    { change 0 with (inject_Z 0). rewrite <- Zlt_Qlt.
      apply Z.pow_pos_nonneg; lia. }
    split; [| split; [| split]].
    + unfold drawGrid. fold b. rewrite Hq.
      destruct (b <=? 5)%Z eqn:E; [| apply Z.leb_gt in E; lia].
      cbn [andb]. fold levels. rewrite !map_app, positions_app, positions_app.
      cbn [map snd positions position app].
      rewrite app_nil_r, gridLine_positions. unfold levels.
      rewrite gridCounter_pow2 by exact Hb0. reflexivity.
    + unfold gridY. change (inject_Z 0) with 0. rewrite HL. field. lra.
    + unfold gridY. rewrite HL. field. lra.
    + intros i. unfold gridY. rewrite HL, inject_Z_plus.
      change (inject_Z 1) with 1. field. lra.
  - intros [Hb1 Hb5] d [Hd0 Hd1].
    pose proof (maxVal_pos b Hb1) as Hm.
    assert (HL : levels == (Js.pow2 b - 1) + 1) by (unfold levels; ring).
    assert (Hdm : inject_Z d <= Js.pow2 b - 1).
    { rewrite (maxVal_inject b) by lia. rewrite <- Zle_Qle. exact Hd1. }
    assert (Hd : 0 <= inject_Z d)
      by (change 0 with (inject_Z 0); rewrite <- Zle_Qle; exact Hd0).
    set (m := Js.pow2 b - 1) in *. set (D := inject_Z d) in *.
    assert (Ey : ampToY h (level b d) == h - D / m * h)
      by (unfold ampToY, level, rescaleCode; fold m D; field; lra).
    assert (E1 : (D + 1) / (m + 1) - D / m == (m - D) / (m * (m + 1)))
      by (field; lra).
    assert (E2 : D / m - D / (m + 1) == D / (m * (m + 1))) by (field; lra).
    assert (Hmm : 0 < m * (m + 1)) by (apply Qmult_lt_0_compat; lra).
    assert (G1 : 0 <= (m - D) / (m * (m + 1)))
      by (apply quotient_nonneg; [lra | exact Hmm]).
    assert (G2 : 0 <= D / (m * (m + 1)))
      by (apply quotient_nonneg; [exact Hd | exact Hmm]).
    unfold gridY. rewrite Ey, HL, inject_Z_plus. fold D.
    change (inject_Z 1) with 1.
    assert (F1 : D / m * h <= (D + 1) / (m + 1) * h)
      by (apply Qmult_le_compat_r; [lra | exact Hh]).
    assert (F2 : D / (m + 1) * h <= D / m * h)
      by (apply Qmult_le_compat_r; [lra | exact Hh]).
    split; lra.
Qed.

Lemma grid_lines_and_bands_witness :
  let p := appProps rampBuffer 5000 4 1 in
  let b := bitDepth p in
  let h := height p in
  let levels := Js.pow2 b in
  (showQuantization p = false \/ (5 < b)%Z -> layer Grid (render p) = [])
  /\ (showQuantization p = true -> (0 <= b <= 5)%Z ->
      positions (layer Grid (render p))
      = flat_map (fun i => [(0, gridY h levels i); (width p, gridY h levels i)])
          (map Z.of_nat (seq 0 (Z.to_nat (2 ^ b + 1))))
      /\ gridY h levels 0 == h
      /\ gridY h levels (2 ^ b) == 0
      /\ (forall i, gridY h levels i - gridY h levels (i + 1)
                    == h / inject_Z (2 ^ b)))
  /\ ((1 <= b <= 5)%Z ->
      forall d, (0 <= d <= 2 ^ b - 1)%Z ->
        gridY h levels (d + 1) <= ampToY h (level b d)
        /\ ampToY h (level b d) <= gridY h levels d).
Proof.
  apply (grid_lines_and_bands (appProps rampBuffer 5000 4 1) rampBuffer).
  - reflexivity.
  - unfold Qle; simpl; lia.
Defined.

(** ** components/WaveformCanvas.tsx: the continuous curve *)

Lemma drawStep_div (wsize : Z) : drawStep wsize = Z.max 1 (wsize / 2000).
Proof.
  unfold drawStep, Js.floor. f_equal.
  change 2000 with (inject_Z 2000). symmetry. apply Zdiv_Qdiv.
Qed.

Lemma floor_inject_offset (i : Z) : Js.floor (timeOffset + inject_Z i) = i.
Proof.
  unfold Js.floor, timeOffset. rewrite <- (Qfloor_Z i) at 2.
  apply Qfloor_comp. ring.
Qed.

Lemma steps_left_none (wsize step i : Z) :
  (1 <= step)%Z -> (wsize <= i)%Z ->
  Z.to_nat ((wsize - i + step - 1) / step) = 0%nat.
Proof.
  intros Hs Hi.
  assert ((wsize - i + step - 1) / step < 1)%Z
    by (apply Z.div_lt_upper_bound; lia).
  lia.
Qed.

Lemma steps_left_some (wsize step i : Z) :
  (1 <= step)%Z -> (i < wsize)%Z ->
  Z.to_nat ((wsize - i + step - 1) / step)
  = S (Z.to_nat ((wsize - (i + step) + step - 1) / step)).
Proof.
  intros Hs Hi.
  replace (wsize - i + step - 1)%Z with ((wsize - i - 1) + 1 * step)%Z by lia.
  replace (wsize - (i + step) + step - 1)%Z with (wsize - i - 1)%Z by lia.
  rewrite Z.div_add by lia.
  assert (0 <= (wsize - i - 1) / step)%Z by (apply Z.div_pos; lia).
  lia.
Qed.

Lemma analogWalk_length (data : list Q) (h : Q) (wsize step : Z) (sw : Q) :
  (1 <= step)%Z -> (wsize <= dataLength data)%Z ->
  forall (fuel : nat) (i : Z) (x : Q),
    (0 <= i)%Z -> (wsize - i <= Z.of_nat fuel)%Z ->
    List.length (analogWalk data h wsize step sw fuel i x)
    = Z.to_nat ((wsize - i + step - 1) / step).
Proof.
  intros Hs Hlen. induction fuel as [| fuel IH]; intros i x Hi Hfuel.
  - simpl. symmetry. apply steps_left_none; lia.
  - cbn [analogWalk]. rewrite floor_inject_offset.
    destruct (i <? wsize)%Z eqn:E.
    + apply Z.ltb_lt in E.
      destruct (i >=? dataLength data)%Z eqn:E'; [lia |].
      destruct (getIndex data i) as [v |] eqn:G.
      * cbn [List.length]. rewrite IH by lia.
        symmetry. apply steps_left_some; lia.
      * exfalso. revert G. apply getIndex_some_iff. lia.
    + apply Z.ltb_ge in E. simpl. symmetry. apply steps_left_none; lia.
Qed.

Lemma analogWalk_lineTo (data : list Q) (h : Q) (wsize step : Z) (sw : Q) :
  (1 <= step)%Z ->
  forall (fuel : nat) (i : Z) (x : Q),
    (0 < i)%Z ->
    forallb isLineTo (analogWalk data h wsize step sw fuel i x) = true.
Proof.
  intros Hs. induction fuel as [| fuel IH]; intros i x Hi; [reflexivity |].
  cbn [analogWalk]. destruct (i <? wsize)%Z; [| reflexivity].
  destruct (_ >=? _)%Z; [reflexivity |].
  destruct (getIndex data _); [| reflexivity].
  cbn [forallb]. rewrite IH by lia.
  destruct (i =? 0)%Z eqn:E; [apply Z.eqb_eq in E; lia | reflexivity].
Qed.

(** X15.  For a zoom of at least 1 the continuous curve is one connected
    path of [ceil (windowSize / drawStep)] points, the first reached by a
    [moveTo] and every other by a [lineTo]; it never has more than 3999
    points, and it shows every sample of a window shorter than 4000. *)
Theorem analog_curve_shape (p : Props) (data : list Q) :
  1 <= zoom p ->
  let wsize := windowSize (dataLength data) (zoom p) in
  let step := drawStep wsize in
  (showAnalog p = true ->
   drawAnalog p data
   = [(Analog, StrokeStyle "#22c55e"); (Analog, LineWidth 2);
      (Analog, BeginPath)]
     ++ analogPoints p data ++ [(Analog, Stroke)])
  /\ List.length (analogPoints p data)
     = Z.to_nat ((wsize + step - 1) / step)
  /\ (List.length (analogPoints p data) <= 3999)%nat
  /\ ((wsize < 4000)%Z -> List.length (analogPoints p data) = Z.to_nat wsize)
  /\ (forall c rest,
        analogPoints p data = c :: rest ->
        isMoveTo c = true /\ forallb isLineTo rest = true).
Proof.
  intros Hzoom wsize step.
  assert (Hw : (0 <= wsize <= dataLength data)%Z)
    by (apply windowSize_bounds; [unfold dataLength; lia | exact Hzoom]).
  pose proof (drawStep_ge_1 wsize) as Hs. fold step in Hs.
  assert (Hcount : List.length (analogPoints p data)
                   = Z.to_nat ((wsize + step - 1) / step)).
  { unfold analogPoints. fold wsize step.
    rewrite (analogWalk_length data (height p) wsize step _ Hs) by lia.
    f_equal. f_equal. lia. }
  split; [| split; [exact Hcount | split; [| split]]].
  - intros Ha. unfold drawAnalog, analogPoints. rewrite Ha. reflexivity.
  - rewrite Hcount.
    assert (Hq : ((wsize + step - 1) / step <= 3999)%Z).
    { apply Z.div_le_upper_bound; [lia |].
      unfold step in *. rewrite drawStep_div in *.
      pose proof (Z.div_mod wsize 2000 ltac:(lia)) as Hdm.
      pose proof (Z.mod_pos_bound wsize 2000 ltac:(lia)) as Hmod.
      lia. }
    lia.
  - intros Hsmall. rewrite Hcount. unfold step.
    rewrite (drawStep_small_window wsize Hsmall).
    replace (wsize + 1 - 1)%Z with wsize by lia. rewrite Z.div_1_r. reflexivity.
  - intros c rest Hpts. unfold analogPoints in Hpts. fold wsize step in Hpts.
    destruct (Z.to_nat wsize) as [| fuel]; [discriminate Hpts |].
    cbn [analogWalk] in Hpts.
    destruct (0 <? wsize)%Z; [| discriminate Hpts].
    destruct (_ >=? _)%Z in Hpts; [discriminate Hpts |].
    destruct (getIndex data _) in Hpts; [| discriminate Hpts].
    injection Hpts as <- <-. split; [reflexivity |].
    apply analogWalk_lineTo; lia.
Qed.

Lemma analog_curve_shape_witness :
  let p := appProps rampBuffer 5000 4 1 in
  let data := rampData in
  let wsize := windowSize (dataLength data) (zoom p) in
  let step := drawStep wsize in
  (showAnalog p = true ->
   drawAnalog p data
   = [(Analog, StrokeStyle "#22c55e"); (Analog, LineWidth 2);
      (Analog, BeginPath)]
     ++ analogPoints p data ++ [(Analog, Stroke)])
  /\ List.length (analogPoints p data)
     = Z.to_nat ((wsize + step - 1) / step)
  /\ (List.length (analogPoints p data) <= 3999)%nat
  /\ ((wsize < 4000)%Z -> List.length (analogPoints p data) = Z.to_nat wsize)
  /\ (forall c rest,
        analogPoints p data = c :: rest ->
        isMoveTo c = true /\ forallb isLineTo rest = true).
Proof.
  apply (analog_curve_shape (appProps rampBuffer 5000 4 1) rampData).
  unfold Qle; simpl; lia.
Defined.

(** ** hooks/useAudioProcessor.ts: what the hook keeps true *)

Lemma stopNode_nil (n : nat) : stopNode n [] = [].
Proof. reflexivity. Qed.

Lemma stopNode_single (n m : nat) :
  stopNode n [m] = [] \/ stopNode n [m] = [m].
Proof.
  unfold stopNode. simpl. destruct (Nat.eq_dec n m); [left | right]; reflexivity.
Qed.

Lemma stopNode_current (n : nat) : stopNode n [n] = [].
Proof.
  unfold stopNode. simpl. destruct (Nat.eq_dec n n); [reflexivity | congruence].
Qed.

Lemma hookRun_app (s : HookState) (xs ys : list HookEvent) :
  hookRun s (xs ++ ys) = hookRun (hookRun s xs) ys.
Proof. unfold hookRun. apply fold_left_app. Qed.

Lemma hookStep_invariant (s : HookState) (e : HookEvent) :
  hookInvariant s -> hookInvariant (hookStep s e).
Proof.
  intros Hinv. pose proof Hinv as [Hplay Hone].
  destruct e as [buf | | | | n]; cbn [hookStep].
  - split; cbn.
    + intros Hp. destruct (Hplay Hp) as [_ Hsrc]. split; [discriminate | exact Hsrc].
    + exact Hone.
  - exact Hinv.
  - destruct (hookBuffer s) as [buf |] eqn:Hbuf; [| exact Hinv].
    split; cbn.
    + intros _. split; discriminate.
    + right. exists (created s). split; [| reflexivity]. f_equal.
      destruct Hone as [Hnil | (m & Hm & Hsrc)].
      * rewrite Hnil. destruct (sourceNodeRef s); reflexivity.
      * rewrite Hm, Hsrc. apply stopNode_current.
  - destruct (sourceNodeRef s) as [old |] eqn:Hsrc; [| exact Hinv].
    split; cbn.
    + discriminate.
    + left. destruct Hone as [Hnil | (m & Hm & Hsrc')].
      * rewrite Hnil. reflexivity.
      * rewrite Hm. assert (m = old) by congruence. subst m.
        apply stopNode_current.
  - destruct (n <? created s)%nat; [| exact Hinv].
    split; cbn.
    + discriminate.
    + destruct Hone as [Hnil | (m & Hm & Hsrc)].
      * left. rewrite Hnil. reflexivity.
      * rewrite Hm. destruct (stopNode_single n m) as [E | E]; rewrite E.
        -- left. reflexivity.
        -- right. exists m. split; [reflexivity | exact Hsrc].
Qed.

Lemma hookRun_invariant (events : list HookEvent) :
  forall s, hookInvariant s -> hookInvariant (hookRun s events).
Proof.
  induction events as [| e events IH]; intros s Hs; [exact Hs |].
  apply IH, hookStep_invariant, Hs.
Qed.

(** X16.  Whatever happens to the hook from its initial state on, while
    it reports playing a buffer is loaded and a source node exists, and
    at most one source node is sounding, the one the ref holds: [play]
    stops the previous node before it starts a new one. *)
Theorem hook_plays_one_source (events : list HookEvent) :
  let s := hookRun hookInit events in
  (isPlaying s = true -> hookBuffer s <> None /\ sourceNodeRef s <> None)
  /\ (sounding s = []
      \/ exists n, sounding s = [n] /\ sourceNodeRef s = Some n)
  /\ (List.length (sounding s) <= 1)%nat.
Proof.
  intros s.
  assert (H : hookInvariant s).
  { apply hookRun_invariant. split; [discriminate | left; reflexivity]. }
  destruct H as [Hplay Hone]. split; [exact Hplay |]. split; [exact Hone |].
  destruct Hone as [E | (n & E & _)]; rewrite E; simpl; lia.
Qed.

Lemma hookStep_buffer_kept (s : HookState) (e : HookEvent) :
  isDecodeOk e = false -> hookBuffer (hookStep s e) = hookBuffer s.
Proof.
  intros He. destruct e as [buf | | | | n]; cbn [hookStep];
    try discriminate He; try reflexivity.
  - destruct (hookBuffer s) eqn:E; cbn; congruence.
  - destruct (sourceNodeRef s); reflexivity.
  - destruct (n <? created s)%nat; reflexivity.
Qed.

Lemma hookRun_buffer_kept (events : list HookEvent) :
  forall s, noDecode events = true ->
            hookBuffer (hookRun s events) = hookBuffer s.
Proof.
  induction events as [| e events IH]; intros s H; [reflexivity |].
  unfold noDecode in H. cbn [forallb] in H. apply andb_true_iff in H as [He H].
  apply negb_true_iff in He. cbn [hookRun fold_left].
  change (fold_left hookStep events (hookStep s e))
    with (hookRun (hookStep s e) events).
  rewrite IH by exact H. apply hookStep_buffer_kept, He.
Qed.

Lemma hookRun_buffer_loaded (events : list HookEvent) :
  forall s, hookBuffer s <> None -> hookBuffer (hookRun s events) <> None.
Proof.
  induction events as [| e events IH]; intros s Hs; [exact Hs |].
  cbn [hookRun fold_left].
  change (fold_left hookStep events (hookStep s e))
    with (hookRun (hookStep s e) events).
  apply IH. destruct e as [buf | | | | n]; cbn [hookStep].
  - discriminate.
  - exact Hs.
  - destruct (hookBuffer s) eqn:E; cbn; congruence.
  - destruct (sourceNodeRef s); exact Hs.
  - destruct (n <? created s)%nat; exact Hs.
Qed.

(** X17.  The buffer the hook hands to the chart is that of the latest
    successful decode: a failed decode leaves the whole state as it was,
    playing, stopping and ended sources never change the buffer, and a
    buffer once loaded is never lost. *)
Theorem hook_buffer_is_latest_decode (s : HookState) :
  hookStep s DecodeFail = s
  /\ (forall events,
        noDecode events = true ->
        hookBuffer (hookRun s events) = hookBuffer s)
  /\ (forall before buf after,
        noDecode after = true ->
        hookBuffer (hookRun s (before ++ DecodeOk buf :: after)) = Some buf)
  /\ (forall events,
        hookBuffer s <> None -> hookBuffer (hookRun s events) <> None).
Proof.
  split; [reflexivity |]. split; [intros events; apply hookRun_buffer_kept |].
  split; [| intros events; apply hookRun_buffer_loaded].
  intros before buf after Hafter.
  rewrite hookRun_app. cbn [hookRun fold_left].
  change (fold_left hookStep after ?x) with (hookRun x after).
  rewrite hookRun_buffer_kept by exact Hafter. reflexivity.
Qed.

Lemma hookStep_silent (s : HookState) (e : HookEvent) :
  isDecodeOk e = false ->
  hookBuffer s = None -> isPlaying s = false -> sourceNodeRef s = None ->
  sounding s = [] ->
  hookStep s e = s.
Proof.
  intros He Hb Hp Hsrc Hsnd. destruct s as [b pl src snd cr].
  cbn in Hb, Hp, Hsrc, Hsnd. subst.
  destruct e as [buf | | | | n]; cbn [hookStep hookBuffer sourceNodeRef];
    try discriminate He; try reflexivity.
  cbn [created sounding isPlaying stopNode].
  destruct (n <? cr)%nat; reflexivity.
Qed.

(** X18.  Nothing can be played before a file has been decoded: as long
    as no decode has succeeded, [play], [stop] and stray [ended] events
    leave the hook in its initial state, silent and not playing. *)
Theorem hook_silent_before_decode (events : list HookEvent) :
  noDecode events = true -> hookRun hookInit events = hookInit.
Proof.
  induction events as [| e events IH]; intros H; [reflexivity |].
  unfold noDecode in H. cbn [forallb] in H. apply andb_true_iff in H as [He H].
  apply negb_true_iff in He. cbn [hookRun fold_left].
  rewrite (hookStep_silent hookInit e He) by reflexivity.
  apply IH, H.
Qed.

Lemma hook_silent_before_decode_witness :
  hookRun hookInit [Play; DecodeFail; Stop; Ended 0; Play] = hookInit.
Proof.
  apply (hook_silent_before_decode [Play; DecodeFail; Stop; Ended 0; Play]).
  reflexivity.
Defined.
